(** * ants: a goroutine pool (pool.go, worker.go, internal/spinlock.go)

    A shallow embedding of the pool coordinator, the worker unit and the
    spin lock, and the properties of them that the specification states.

    Conventions.
    - Go's fixed-width integers are [Z] with the wrap-around of every
      narrowing conversion and atomic addition written out ([int32],
      [int64]); [int] is the 64-bit [int] of Go's 64-bit targets.
    - A [*goWorker] is an address ([nat]) into a heap of worker structs; the
      idle queue, the free-object cache and the condition variable hold
      addresses or goroutine ids, so sharing is visible.
    - The code of one goroutine between two blocking operations (waiting for
      the pool lock, [cond.Wait], a channel receive, the run of a task,
      [time.Sleep]) is one state transformer; what other goroutines do while
      it is blocked happens between two transformers. In the step system
      [retrieveWorker] is cut once more, at the [p.lock.Unlock()] that
      precedes [spawnWorker()]: the capacity test is made under the lock and
      [addRunning(1)] after it, and other goroutines run in between.
    - Effects that leave the pool (a wake-up, a channel send, a goroutine
      launch, a log line) are also appended to a log, in program order. *)

From Stdlib Require Import ZArith Lia List Bool.
From stdpp Require Import base option list gmap.
Import ListNotations.
Open Scope Z_scope.

(** ** Fixed-width integers *)

Module Int.

(** Two's-complement value of the low [bits] bits of [x]: what a Go
    conversion to a [bits]-bit signed type, or an overflowing operation
    on one, yields. *)
Definition wrap (bits x : Z) : Z :=
  (x + 2 ^ (bits - 1)) mod 2 ^ bits - 2 ^ (bits - 1).

Definition int32 (x : Z) : Z := wrap 32 x.
Definition int64 (x : Z) : Z := wrap 64 x.

Definition min_int32 : Z := - 2 ^ 31.
Definition max_int32 : Z := 2 ^ 31 - 1.
Definition min_int : Z := - 2 ^ 63.
Definition max_int : Z := 2 ^ 63 - 1.

Definition in_int32 (x : Z) : Prop := min_int32 <= x <= max_int32.
Definition in_int (x : Z) : Prop := min_int <= x <= max_int.

End Int.

(** ** internal/spinlock.go *)

Module SpinLock.

(** [type spinLock uint32]: 0 is free, 1 is held. *)
Definition spinLock : Type := Z.

Definition maxBackoff : Z := 16.

(** What one call of [Lock] does, in order: a compare-and-swap that
    failed, a compare-and-swap that succeeded, a [runtime.Gosched()]. *)
Inductive event : Type := CasFailed | CasSucceeded | Gosched.

(** [atomic.CompareAndSwapUint32(addr, old, new)] on a word holding [v]:
    whether it swapped, and the word afterwards. *)
Definition CompareAndSwapUint32 (v old new : Z) : bool * Z :=
  if v =? old then (true, new) else (false, v).

(** [for i := 0; i < backoff; i++ { runtime.Gosched() }], with [n] the
    iterations still allowed. *)
Fixpoint yield_loop (n : nat) (i backoff : Z) : list event :=
  match n with
  | O => []
  | S n' => if i <? backoff then Gosched :: yield_loop n' (i + 1) backoff else []
  end.

(** The variant [backoff - i] of the loop bounds its iterations. *)
Definition yields (backoff : Z) : list event :=
  yield_loop (Z.to_nat backoff) 0 backoff.

(** The body of [Lock]'s outer loop after a failed swap leaves this
    backoff counter. *)
Definition next_backoff (backoff : Z) : Z :=
  if backoff <? maxBackoff then Z.shiftl backoff 1 else backoff.

(** Result of [Lock]: the lock was taken (the word now holds 1), or the
    goroutine is still spinning with this backoff counter. *)
Inductive outcome : Type :=
| Acquired (word : Z)
| Spinning (backoff : Z).

(** The loop of [Lock] from a given backoff counter. The lock word is
    shared, so its value at each attempt is decided by the other
    goroutines: [seen] lists the value the word holds at each successive
    compare-and-swap of this goroutine. The loop goes on for as long as
    [seen] describes the word. *)
Fixpoint Lock_from (backoff : Z) (seen : list Z) : list event * outcome :=
  match seen with
  | [] => ([], Spinning backoff)
  | v :: seen' =>
      let '(swapped, v') := CompareAndSwapUint32 v 0 1 in
      if swapped then ([CasSucceeded], Acquired v')
      else
        let '(tr, out) := Lock_from (next_backoff backoff) seen' in
        (CasFailed :: yields backoff ++ tr, out)
  end.

(** [func (sl *spinLock) Lock()]: [backoff := 1], then the loop. *)
Definition Lock (seen : list Z) : list event * outcome := Lock_from 1 seen.

(** [func (sl *spinLock) Unlock()]: an atomic store of 0 into the word,
    whatever it holds. *)
Definition Unlock (sl : spinLock) : spinLock := 0.

(** [NewSpinLock]: [new(spinLock)], a zeroed word. *)
Definition NewSpinLock : spinLock := 0.

(** The failed attempts at the head of [seen]. *)
Fixpoint failures (seen : list Z) : nat :=
  match seen with
  | [] => O
  | v :: seen' => if v =? 0 then O else S (failures seen')
  end.

(** The backoff counter in force at the [k]-th failed attempt (from 0), as
    the specification gives it: 1 doubled [k] times, capped at 16. *)
Definition backoff_at (k : nat) : Z := Z.min (2 ^ Z.of_nat k) 16.

(** The events of [n] failed attempts in a row, the first of them being
    the [k]-th of the call. *)
Definition failed_rounds (k n : nat) : list event :=
  flat_map (fun j => CasFailed :: repeat Gosched (Z.to_nat (backoff_at j)))
           (seq k n).

(** The number of [runtime.Gosched()] in a trace. *)
Fixpoint gosched_count (tr : list event) : nat :=
  match tr with
  | [] => O
  | Gosched :: tr' => S (gosched_count tr')
  | _ :: tr' => gosched_count tr'
  end.

End SpinLock.

(** ** pool.go and worker.go: the data *)

Module Ants.
Import Int.

(** Modelled from the spec: the state constants are declared outside
    pool.go. The pool is "OPEN or CLOSED"; [NewPool] leaves the [state]
    field zeroed and the pool starts open, so [OPENED] is 0 and [CLOSED]
    is the other value, 1. *)
Definition OPENED : Z := 0.
Definition CLOSED : Z := 1.

(** Modelled from the spec: the "built-in default" expiry interval that a
    zero interval is replaced by, declared outside pool.go; one second,
    in nanoseconds as [time.Duration] counts. *)
Definition DefaultCleanIntervalTime : Z := 1000000000.

(** The error values that pool.go returns (declared outside it). *)
Inductive error : Type :=
| ErrInvalidPoolExpiry
| ErrInvalidPreAllocSize
| ErrPoolClosed
| ErrPoolOverload
| ErrTimeout.

(** The specification's error kinds (section 7). *)
Inductive error_kind : Type := Closed | Overloaded | InvalidConfiguration | Timeout.

Definition kind_of (e : error) : error_kind :=
  match e with
  | ErrInvalidPoolExpiry | ErrInvalidPreAllocSize => InvalidConfiguration
  | ErrPoolClosed => Closed
  | ErrPoolOverload => Overloaded
  | ErrTimeout => Timeout
  end.

(** A value of type [func()]: [nil], or a function. The body of a
    function is opaque to the pool; functions are told apart by a number. *)
Inductive Task : Type :=
| Nil
| Func (f : nat).

(** [type goWorker struct]. [task] is the channel, as the values sent and
    not yet received, oldest first; [recycleTime] is a clock reading. The
    back-reference [pool] is left out: there is one pool. *)
Record goWorker : Type := mkWorker {
  task : list Task;
  recycleTime : Z
}.

(** A logger: the default one, or one given by the caller. *)
Inductive logger : Type := defaultLogger | customLogger (l : nat).

(** The fields of [Options] that pool.go and worker.go read (the struct is
    declared outside them). [PanicHandler] is [nil] or a handler, told
    apart by a number. *)
Record Options : Type := mkOptions {
  ExpiryDuration : Z;
  PreAlloc : bool;
  MaxBlockingTasks : Z;
  Nonblocking : bool;
  PanicHandler : option nat;
  Logger : option logger;
  DisablePurge : bool
}.

Definition with_ExpiryDuration (d : Z) (o : Options) : Options :=
  mkOptions d (PreAlloc o) (MaxBlockingTasks o) (Nonblocking o)
            (PanicHandler o) (Logger o) (DisablePurge o).

Definition with_Logger (l : option logger) (o : Options) : Options :=
  mkOptions (ExpiryDuration o) (PreAlloc o) (MaxBlockingTasks o) (Nonblocking o)
            (PanicHandler o) l (DisablePurge o).

(** The two storage strategies of the idle-worker queue. *)
Inductive arrayType : Type := stackType | loopQueueType.

(** Modelled from the spec: the idle-worker queue ([workerArray], declared
    outside pool.go), by its contract in section 4.3. [wa_items] holds the
    addresses of the idle workers in insertion order, oldest first;
    [wa_size] is the fixed capacity of the circular strategy. *)
Record workerArray : Type := mkArray {
  wa_kind : arrayType;
  wa_size : Z;
  wa_items : list nat
}.

(** Modelled from the spec: [newWorkerArray(kind, size)], an empty queue. *)
Definition newWorkerArray (k : arrayType) (size : Z) : workerArray :=
  mkArray k size [].

(** [type Pool struct]. [lock] is the spin-lock word; [cond] is the
    condition variable, as the goroutines parked in [Wait], longest
    waiting first; [workerCache] is the free-object cache, as the
    addresses put into it, latest first; [stopHeartbeat] is [nil] or the
    cancel function of a context, told apart by a number. *)
Record Pool : Type := mkPool {
  capacity : Z;
  running : Z;
  lock : SpinLock.spinLock;
  workers : workerArray;
  state : Z;
  cond : list nat;
  workerCache : list nat;
  waiting : Z;
  heartbeatDone : Z;
  stopHeartbeat : option nat;
  options : Options
}.

(** Where a worker's goroutine stands in the loop of [goWorker.run]. *)
Inductive wstate : Type :=
| Receiving                 (* blocked in [for f := range w.task] *)
| Executing (f : nat)       (* inside the call [f()] *)
| Reverting.                (* in [revertWorker], waiting for [p.lock] *)

(** Where a goroutine that called [Submit] stands. *)
Inductive cstate : Type :=
| AtLock (t : Task)         (* past [IsClosed], waiting for [p.lock] *)
| InWait (t : Task)         (* inside [p.cond.Wait()] *)
| Spawning (t : Task).      (* past [p.lock.Unlock()], before [spawnWorker()] *)

(** Where a scavenger goroutine ([purgePeriodically]) stands. *)
Inductive sstate : Type :=
| Selecting                 (* blocked in the [select] *)
| Purging.                  (* past [IsClosed], waiting for [p.lock] *)

(** Effects, in program order. *)
Inductive event : Type :=
| EvLock                              (* [p.lock.Lock()] returned *)
| EvUnlock                            (* [p.lock.Unlock()] *)
| EvSignal (woken : option nat)       (* [p.cond.Signal()], and whom it woke *)
| EvBroadcast (woken : list nat)      (* [p.cond.Broadcast()], and whom it woke *)
| EvSend (w : nat) (t : Task)         (* [w.task <- t] *)
| EvGo (w : nat)                      (* the [go func()] of [w.run()] *)
| EvCall (w f : nat)                  (* worker [w] calls [f()] *)
| EvPanicHandler (h v : nat)          (* [ph(p)] *)
| EvLogPanic (l : option logger) (v : nat) (* the two [Logger.Printf] *)
| EvCancel (ctx : nat)                (* a context's cancel function is called *)
| EvGoPurge (ctx : nat)               (* [go p.purgePeriodically(ctx)] *)
| EvReturn (g : nat) (e : option error). (* [Submit] returns to goroutine [g] *)

(** The program state: the pool, the worker structs by address, the
    goroutines and where each stands, the contexts made so far and those
    cancelled, the clock (in nanoseconds), and the log. [releasing]
    counts the goroutines inside [Release] that have closed the pool and
    wait for the lock. *)
Record World : Type := mkWorld {
  pool : Pool;
  heap : gmap nat goWorker;
  next_worker : nat;
  goroutines : gmap nat wstate;
  callers : gmap nat cstate;
  scavengers : gmap nat sstate;
  releasing : nat;
  next_ctx : nat;
  cancelled : list nat;
  now : Z;
  log : list event
}.

(** *** Field updates *)

Definition set_capacity (v : Z) (p : Pool) : Pool :=
  mkPool v (running p) (lock p) (workers p) (state p) (cond p)
         (workerCache p) (waiting p) (heartbeatDone p) (stopHeartbeat p) (options p).
Definition set_running (v : Z) (p : Pool) : Pool :=
  mkPool (capacity p) v (lock p) (workers p) (state p) (cond p)
         (workerCache p) (waiting p) (heartbeatDone p) (stopHeartbeat p) (options p).
Definition set_lock (v : Z) (p : Pool) : Pool :=
  mkPool (capacity p) (running p) v (workers p) (state p) (cond p)
         (workerCache p) (waiting p) (heartbeatDone p) (stopHeartbeat p) (options p).
Definition set_workers (v : workerArray) (p : Pool) : Pool :=
  mkPool (capacity p) (running p) (lock p) v (state p) (cond p)
         (workerCache p) (waiting p) (heartbeatDone p) (stopHeartbeat p) (options p).
Definition set_state (v : Z) (p : Pool) : Pool :=
  mkPool (capacity p) (running p) (lock p) (workers p) v (cond p)
         (workerCache p) (waiting p) (heartbeatDone p) (stopHeartbeat p) (options p).
Definition set_cond (v : list nat) (p : Pool) : Pool :=
  mkPool (capacity p) (running p) (lock p) (workers p) (state p) v
         (workerCache p) (waiting p) (heartbeatDone p) (stopHeartbeat p) (options p).
Definition set_workerCache (v : list nat) (p : Pool) : Pool :=
  mkPool (capacity p) (running p) (lock p) (workers p) (state p) (cond p)
         v (waiting p) (heartbeatDone p) (stopHeartbeat p) (options p).
Definition set_waiting (v : Z) (p : Pool) : Pool :=
  mkPool (capacity p) (running p) (lock p) (workers p) (state p) (cond p)
         (workerCache p) v (heartbeatDone p) (stopHeartbeat p) (options p).
Definition set_heartbeatDone (v : Z) (p : Pool) : Pool :=
  mkPool (capacity p) (running p) (lock p) (workers p) (state p) (cond p)
         (workerCache p) (waiting p) v (stopHeartbeat p) (options p).
Definition set_stopHeartbeat (v : option nat) (p : Pool) : Pool :=
  mkPool (capacity p) (running p) (lock p) (workers p) (state p) (cond p)
         (workerCache p) (waiting p) (heartbeatDone p) v (options p).

Definition upd_pool (f : Pool -> Pool) (w : World) : World :=
  mkWorld (f (pool w)) (heap w) (next_worker w) (goroutines w) (callers w)
          (scavengers w) (releasing w) (next_ctx w) (cancelled w) (now w) (log w).
Definition upd_heap (f : gmap nat goWorker -> gmap nat goWorker) (w : World) : World :=
  mkWorld (pool w) (f (heap w)) (next_worker w) (goroutines w) (callers w)
          (scavengers w) (releasing w) (next_ctx w) (cancelled w) (now w) (log w).
Definition set_next_worker (n : nat) (w : World) : World :=
  mkWorld (pool w) (heap w) n (goroutines w) (callers w)
          (scavengers w) (releasing w) (next_ctx w) (cancelled w) (now w) (log w).
Definition upd_goroutines (f : gmap nat wstate -> gmap nat wstate) (w : World) : World :=
  mkWorld (pool w) (heap w) (next_worker w) (f (goroutines w)) (callers w)
          (scavengers w) (releasing w) (next_ctx w) (cancelled w) (now w) (log w).
Definition upd_callers (f : gmap nat cstate -> gmap nat cstate) (w : World) : World :=
  mkWorld (pool w) (heap w) (next_worker w) (goroutines w) (f (callers w))
          (scavengers w) (releasing w) (next_ctx w) (cancelled w) (now w) (log w).
Definition upd_scavengers (f : gmap nat sstate -> gmap nat sstate) (w : World) : World :=
  mkWorld (pool w) (heap w) (next_worker w) (goroutines w) (callers w)
          (f (scavengers w)) (releasing w) (next_ctx w) (cancelled w) (now w) (log w).
Definition set_releasing (n : nat) (w : World) : World :=
  mkWorld (pool w) (heap w) (next_worker w) (goroutines w) (callers w)
          (scavengers w) n (next_ctx w) (cancelled w) (now w) (log w).
Definition set_next_ctx (n : nat) (w : World) : World :=
  mkWorld (pool w) (heap w) (next_worker w) (goroutines w) (callers w)
          (scavengers w) (releasing w) n (cancelled w) (now w) (log w).
Definition set_cancelled (l : list nat) (w : World) : World :=
  mkWorld (pool w) (heap w) (next_worker w) (goroutines w) (callers w)
          (scavengers w) (releasing w) (next_ctx w) l (now w) (log w).
Definition set_now (t : Z) (w : World) : World :=
  mkWorld (pool w) (heap w) (next_worker w) (goroutines w) (callers w)
          (scavengers w) (releasing w) (next_ctx w) (cancelled w) t (log w).
Definition emit (e : event) (w : World) : World :=
  mkWorld (pool w) (heap w) (next_worker w) (goroutines w) (callers w)
          (scavengers w) (releasing w) (next_ctx w) (cancelled w) (now w) (log w ++ [e]).

(** *** The state monad of one goroutine's code *)

Definition M (A : Type) : Type := World -> A * World.

Definition ret {A} (a : A) : M A := fun w => (a, w).
Definition bind {A B} (m : M A) (k : A -> M B) : M B :=
  fun w => let '(a, w') := m w in k a w'.
Definition get {A} (f : World -> A) : M A := fun w => (f w, w).
Definition modify (f : World -> World) : M unit := fun w => (tt, f w).

Declare Scope go_scope.
Delimit Scope go_scope with go.
Notation "x <- m ;; k" := (bind m (fun x => k))
  (at level 100, m at next level, right associativity) : go_scope.
Notation "m ;; k" := (bind m (fun _ => k))
  (at level 100, right associativity) : go_scope.
Local Open Scope go_scope.


(** *** Atomic fields, the lock, the condition variable, the clock *)

(** [func (p *Pool) Running() int], [Waiting], [Cap]: an atomic load,
    widened from [int32] to [int]. *)
Definition Running : M Z := get (fun w => running (pool w)).
Definition Waiting : M Z := get (fun w => waiting (pool w)).
Definition Cap : M Z := get (fun w => capacity (pool w)).

(** [func (p *Pool) Free() int]. *)
Definition Free : M Z :=
  c <- Cap;;
  if c <? 0 then ret (-1)
  else r <- Running;; ret (c - r).

(** [func (p *Pool) IsClosed() bool]. *)
Definition IsClosed : M bool := get (fun w => state (pool w) =? CLOSED).

(** [func (p *Pool) addRunning(delta int)]:
    [atomic.AddInt32(&p.running, int32(delta))]. *)
Definition addRunning (delta : Z) : M unit :=
  modify (upd_pool (fun p => set_running (int32 (running p + int32 delta)) p)).

(** [func (p *Pool) addWaiting(delta int)]. *)
Definition addWaiting (delta : Z) : M unit :=
  modify (upd_pool (fun p => set_waiting (int32 (waiting p + int32 delta)) p)).

(** [atomic.CompareAndSwapInt32(&p.state, old, new)]. *)
Definition CompareAndSwapState (old new : Z) : M bool :=
  fun w => if state (pool w) =? old
           then (true, upd_pool (set_state new) w)
           else (false, w).

(** [p.lock.Lock()] at the moment it returns, and [p.lock.Unlock()]. *)
Definition lock_Lock : M unit :=
  modify (fun w => emit EvLock (upd_pool (set_lock 1) w)).
Definition lock_Unlock : M unit :=
  modify (fun w => emit EvUnlock
                     (upd_pool (fun p => set_lock (SpinLock.Unlock (lock p)) p) w)).

(** [p.cond.Signal()]: wakes the goroutine that has waited longest, if
    there is one. *)
Definition cond_Signal : M unit :=
  modify (fun w => match cond (pool w) with
                   | [] => emit (EvSignal None) w
                   | g :: rest => emit (EvSignal (Some g)) (upd_pool (set_cond rest) w)
                   end).

(** [p.cond.Broadcast()]: wakes every waiting goroutine. *)
Definition cond_Broadcast : M unit :=
  modify (fun w => emit (EvBroadcast (cond (pool w))) (upd_pool (set_cond []) w)).

(** The first half of [p.cond.Wait()] by goroutine [g]: it joins the
    waiters and unlocks. The second half, once woken, is [lock_Lock]. *)
Definition cond_Wait (g : nat) : M unit :=
  modify (upd_pool (fun p => set_cond (cond p ++ [g]) p));;
  lock_Unlock.

(** [time.Now()]. *)
Definition time_Now : M Z := get now.

(** *** Channels and the free-object cache *)

(** The struct at an address; memory that was never written holds the
    zero value. *)
Definition worker_at (h : gmap nat goWorker) (wk : nat) : goWorker :=
  default (mkWorker [] 0) (h !! wk).
Arguments worker_at : simpl never.

Definition push_task (t : Task) (s : goWorker) : goWorker :=
  mkWorker (task s ++ [t]) (recycleTime s).

(** [w.task <- t]. The channel's capacity (a constant declared outside
    these files) decides only whether the sender waits for the receiver;
    the values are received in the order of the sends. *)
Definition chan_send (wk : nat) (t : Task) : M unit :=
  modify (fun w => emit (EvSend wk t)
                        (upd_heap (fun h => <[wk := push_task t (worker_at h wk)]> h) w)).

(** A receive from [w.task]: the oldest value and the world without it,
    or nothing while the channel is empty. *)
Definition chan_recv (wk : nat) (w : World) : option (Task * World) :=
  match task (worker_at (heap w) wk) with
  | t :: rest =>
      Some (t, upd_heap (insert wk (mkWorker rest (recycleTime (worker_at (heap w) wk)))) w)
  | [] => None
  end.

(** [p.workerCache.Get()]: a cached struct, or a new one from
    [workerCache.New] with an empty channel. (A [sync.Pool] may also
    forget what it caches, which is a step of its own, [OpCacheDrop].) *)
Definition workerCache_Get : M nat :=
  fun w => match workerCache (pool w) with
           | wk :: rest => (wk, upd_pool (set_workerCache rest) w)
           | [] =>
               let wk := next_worker w in
               (wk, set_next_worker (S wk) (upd_heap (insert wk (mkWorker [] 0)) w))
           end.

(** [p.workerCache.Put(w)]. *)
Definition workerCache_Put (wk : nat) : M unit :=
  modify (upd_pool (fun p => set_workerCache (wk :: workerCache p) p)).

(** *** The idle-worker queue *)

(** Modelled from the spec: [detach], "removes and returns one idle
    worker if any exist": the most recently inserted one under the
    growable strategy, the oldest one under the circular one. *)
Definition wa_detach (q : workerArray) : option nat * workerArray :=
  match wa_kind q with
  | stackType =>
      match rev (wa_items q) with
      | [] => (None, q)
      | wk :: r => (Some wk, mkArray (wa_kind q) (wa_size q) (rev r))
      end
  | loopQueueType =>
      match wa_items q with
      | [] => (None, q)
      | wk :: r => (Some wk, mkArray (wa_kind q) (wa_size q) r)
      end
  end.

(** Modelled from the spec: [insert], which "fails (without throwing) if
    the queue is in a fixed-capacity strategy and already full". *)
Definition wa_insert (wk : nat) (q : workerArray) : option workerArray :=
  match wa_kind q with
  | stackType => Some (mkArray (wa_kind q) (wa_size q) (wa_items q ++ [wk]))
  | loopQueueType =>
      if Z.of_nat (length (wa_items q)) <? wa_size q
      then Some (mkArray (wa_kind q) (wa_size q) (wa_items q ++ [wk]))
      else None
  end.

Definition expired (h : gmap nat goWorker) (deadline : Z) (wk : nat) : bool :=
  recycleTime (worker_at h wk) <? deadline.

(** Modelled from the spec: [retrieveExpiry], which "removes and returns
    all workers whose idle timestamp is older than now - threshold". *)
Definition wa_retrieveExpiry (h : gmap nat goWorker) (now duration : Z)
           (q : workerArray) : list nat * workerArray :=
  (List.filter (expired h (now - duration)) (wa_items q),
   mkArray (wa_kind q) (wa_size q)
           (List.filter (fun wk => negb (expired h (now - duration) wk)) (wa_items q))).

Definition workers_detach : M (option nat) :=
  fun w => let '(r, q) := wa_detach (workers (pool w)) in
           (r, upd_pool (set_workers q) w).

Definition workers_insert (wk : nat) : M bool :=
  fun w => match wa_insert wk (workers (pool w)) with
           | Some q => (true, upd_pool (set_workers q) w)
           | None => (false, w)
           end.

Definition workers_retrieveExpiry (duration : Z) : M (list nat) :=
  fun w => let '(r, q) := wa_retrieveExpiry (heap w) (now w) duration (workers (pool w)) in
           (r, upd_pool (set_workers q) w).

(** [for i := range ws { ws[i].task <- nil }]. *)
Fixpoint send_nil (ws : list nat) : M unit :=
  match ws with
  | [] => ret tt
  | wk :: ws' => chan_send wk Nil;; send_nil ws'
  end.

(** Modelled from the spec: [reset], which "empties the queue, signaling
    every worker in it to stop". *)
Definition workers_reset : M unit :=
  ws <- get (fun w => wa_items (workers (pool w)));;
  send_nil ws;;
  modify (upd_pool (fun p => set_workers
                               (mkArray (wa_kind (workers p)) (wa_size (workers p)) []) p)).


(** ** worker.go and pool.go: the operations *)

(** What other goroutines do to the world while this one is blocked
    (waiting for the lock, asleep): any function of the world. *)
Definition blocked (others : World -> World) : M unit := modify others.

(** [func (w *goWorker) run()], up to and with the launch of the
    goroutine, which starts blocked on its channel. *)
Definition run (wk : nat) : M unit :=
  addRunning 1;;
  modify (fun w => emit (EvGo wk) (upd_goroutines (insert wk Receiving) w)).

(** The closure [spawnWorker] of [retrieveWorker]. *)
Definition spawnWorker : M nat :=
  wk <- workerCache_Get;;
  run wk;;
  ret wk.

(** What [retrieveWorker] has for its caller at the end of a stretch of
    code: a worker, [nil], or nothing yet, the caller being parked in
    [p.cond.Wait()]. *)
Inductive acquired : Type :=
| Worker (wk : nat)
| NoWorker
| MustWait.

(** Where [retrieveWorker] stands once it has released the lock: it has
    a result for its caller (or waits), or it is about to call
    [spawnWorker()], which runs without the lock. *)
Inductive located : Type :=
| Got (a : acquired)
| ToSpawn.

(** [retrieveWorker] from the label [retry] to its return or to the
    first half of [p.cond.Wait()]. *)
Definition retry (g : nat) : M acquired :=
  o <- get (fun w => options (pool w));;
  wt <- Waiting;;
  if negb (MaxBlockingTasks o =? 0) && (wt >=? MaxBlockingTasks o)
  then (lock_Unlock;; ret NoWorker)
  else (addWaiting 1;; cond_Wait g;; ret MustWait).

(** [retrieveWorker], called by goroutine [g], from the moment
    [p.lock.Lock()] returns to the [p.lock.Unlock()] (or to the first half
    of [p.cond.Wait()], which unlocks as well). *)
Definition retrieveWorker_locked (g : nat) : M located :=
  lock_Lock;;
  d <- workers_detach;;
  match d with
  | Some wk => lock_Unlock;; ret (Got (Worker wk))
  | None =>
      capacity <- Cap;;
      r <- Running;;
      if (capacity =? -1) || (capacity >? r)
      then (lock_Unlock;; ret ToSpawn)
      else
        o <- get (fun w => options (pool w));;
        if Nonblocking o
        then (lock_Unlock;; ret (Got NoWorker))
        else (a <- retry g;; ret (Got a))
  end.

(** The same from the moment [p.cond.Wait()] returns (the lock is held
    again). *)
Definition retrieveWorker_awake_locked (g : nat) : M located :=
  lock_Lock;;
  addWaiting (-1);;
  closed <- IsClosed;;
  if closed then (lock_Unlock;; ret (Got NoWorker))
  else
    nw <- Running;;
    if nw =? 0 then (lock_Unlock;; ret ToSpawn)
    else
      d <- workers_detach;;
      match d with
      | None =>
          c <- Cap;;
          if nw <? c then (lock_Unlock;; ret ToSpawn)
          else (a <- retry g;; ret (Got a))
      | Some wk => lock_Unlock;; ret (Got (Worker wk))
      end.

(** What follows the unlock: [spawnWorker(); return] where the lock was
    released for it, the return otherwise. *)
Definition unlocked (l : located) : M acquired :=
  match l with
  | Got a => ret a
  | ToSpawn => wk <- spawnWorker;; ret (Worker wk)
  end.

(** [func (p *Pool) retrieveWorker() (w *goWorker)], called by goroutine
    [g], from the moment [p.lock.Lock()] returns, no other goroutine
    running between its unlock and its [spawnWorker()]. *)
Definition retrieveWorker (g : nat) : M acquired :=
  l <- retrieveWorker_locked g;; unlocked l.

(** [retrieveWorker] from the moment [p.cond.Wait()] returns (the lock
    is held again) to its return or to the next wait. *)
Definition retrieveWorker_awake (g : nat) : M acquired :=
  l <- retrieveWorker_awake_locked g;; unlocked l.

(** What a call of [Submit] has come to: it returned ([nil] or an
    error), or its goroutine is parked in [p.cond.Wait()]. *)
Inductive submitted : Type :=
| Returned (e : option error)
| Blocked.

(** The end of [Submit], from the result of [retrieveWorker]. *)
Definition Submit_handoff (t : Task) (a : acquired) : M submitted :=
  match a with
  | NoWorker => ret (Returned (Some ErrPoolOverload))
  | Worker wk => chan_send wk t;; ret (Returned None)
  | MustWait => ret Blocked
  end.

Definition Submit_locked (g : nat) (t : Task) : M submitted :=
  a <- retrieveWorker g;; Submit_handoff t a.

Definition Submit_awake (g : nat) (t : Task) : M submitted :=
  a <- retrieveWorker_awake g;; Submit_handoff t a.

(** [Submit] from the unlock that precedes [spawnWorker()] to its
    return. *)
Definition Submit_spawn (t : Task) : M submitted :=
  a <- unlocked ToSpawn;; Submit_handoff t a.

(** [func (p *Pool) Submit(task func()) error], called by goroutine [g]. *)
Definition Submit (others : World -> World) (g : nat) (t : Task) : M submitted :=
  closed <- IsClosed;;
  if closed then ret (Returned (Some ErrPoolClosed))
  else (blocked others;; Submit_locked g t).

(** [func (p *Pool) Tune(size int)]. *)
Definition Tune (size : Z) : M unit :=
  capacity <- Cap;;
  o <- get (fun w => options (pool w));;
  if (capacity =? -1) || (size <=? 0) || (size =? capacity) || PreAlloc o
  then ret tt
  else
    modify (upd_pool (set_capacity (int32 size)));;
    if size >? capacity
    then (if int64 (size - capacity) =? 1 then cond_Signal else cond_Broadcast)
    else ret tt.

(** [Release] after its compare-and-swap, from the moment the lock is
    taken. *)
Definition Release_locked : M unit :=
  lock_Lock;;
  workers_reset;;
  lock_Unlock;;
  cond_Broadcast.

(** The compare-and-swap that opens [Release]: whether this call is the
    one that closes the pool. *)
Definition Release_cas : M bool := CompareAndSwapState OPENED CLOSED.

(** [func (p *Pool) Release()]. *)
Definition Release (others : World -> World) : M unit :=
  swapped <- Release_cas;;
  if negb swapped then ret tt
  else (blocked others;; Release_locked).

(** [context.WithCancel(context.Background())]: a new context. *)
Definition WithCancel : M nat :=
  fun w => (next_ctx w, set_next_ctx (S (next_ctx w)) w).

(** Calling the cancel function of context [ctx]. *)
Definition cancel (ctx : nat) : M unit :=
  modify (fun w => emit (EvCancel ctx) (set_cancelled (ctx :: cancelled w) w)).

(** [go p.purgePeriodically(ctx)]: the scavenger starts blocked in its
    [select]. *)
Definition go_purgePeriodically (ctx : nat) : M unit :=
  modify (fun w => emit (EvGoPurge ctx) (upd_scavengers (insert ctx Selecting) w)).

(** The end of [NewPool] and of [Reboot]: a fresh context, its cancel
    function kept in [stopHeartbeat], and the scavenger unless purging is
    disabled. *)
Definition start_heartbeat : M unit :=
  ctx <- WithCancel;;
  modify (upd_pool (set_stopHeartbeat (Some ctx)));;
  o <- get (fun w => options (pool w));;
  if negb (DisablePurge o) then go_purgePeriodically ctx else ret tt.

(** [func (p *Pool) Reboot()]. *)
Definition Reboot : M unit :=
  swapped <- CompareAndSwapState CLOSED OPENED;;
  if swapped
  then (modify (upd_pool (set_heartbeatDone 0));; start_heartbeat)
  else ret tt.

(** What a call of [ReleaseTimeout] has come to: it returned, or it is
    in [time.Sleep] inside the polling loop with this deadline. *)
Inductive timed : Type :=
| Finished (e : option error)
| Sleeping (endTime : Z).

(** One evaluation of the loop of [ReleaseTimeout], from its condition
    to its return or to the sleep. *)
Definition ReleaseTimeout_poll (endTime : Z) : M timed :=
  t <- time_Now;;
  if t <? endTime
  then
    r <- Running;;
    o <- get (fun w => options (pool w));;
    hb <- get (fun w => heartbeatDone (pool w));;
    if (r =? 0) && (DisablePurge o || (hb =? 1))
    then ret (Finished None)
    else ret (Sleeping endTime)
  else ret (Finished (Some ErrTimeout)).

(** [ReleaseTimeout] up to the lock inside its call of [Release]:
    [None] when it returns [ErrPoolClosed] at once, else whether the
    compare-and-swap of [Release] closed the pool. *)
Definition ReleaseTimeout_enter : M (option bool) :=
  closed <- IsClosed;;
  sh <- get (fun w => stopHeartbeat (pool w));;
  match sh with
  | None => ret None
  | Some ctx =>
      if closed then ret None
      else
        cancel ctx;;
        modify (upd_pool (set_stopHeartbeat None));;
        swapped <- Release_cas;;
        ret (Some swapped)
  end.

(** The clock moves on by [d]. *)
Definition elapse (d : Z) : M unit :=
  modify (fun w => set_now (now w + d) w).

(** [ReleaseTimeout] after its call of [Release]: the deadline from one
    reading of the clock, and the loop, whose condition reads the clock
    again, [lapse] later, up to its return or its first sleep. *)
Definition ReleaseTimeout_wait (timeout lapse : Z) : M timed :=
  t <- time_Now;;
  elapse lapse;;
  ReleaseTimeout_poll (t + timeout).

(** [func (p *Pool) ReleaseTimeout(timeout time.Duration) error], up to
    its return or its first sleep; [lapse] is the time between the two
    readings of the clock that open the loop. *)
Definition ReleaseTimeout (others : World -> World) (timeout lapse : Z) : M timed :=
  e <- ReleaseTimeout_enter;;
  match e with
  | None => ret (Finished (Some ErrPoolClosed))
  | Some swapped =>
      (if swapped then (blocked others;; Release_locked) else ret tt);;
      ReleaseTimeout_wait timeout lapse
  end.

(** [ReleaseTimeout] from the end of a sleep: the loop again. *)
Definition ReleaseTimeout_awake (endTime : Z) : M timed :=
  ReleaseTimeout_poll endTime.

Definition stamp (t : Z) (s : goWorker) : goWorker := mkWorker (task s) t.

(** [revertWorker] up to [p.lock.Lock()]: [false] is its result, [true]
    means it goes on to take the lock. *)
Definition revertWorker_check (wk : nat) : M bool :=
  capacity <- Cap;;
  r <- Running;;
  closed <- IsClosed;;
  if ((capacity >? 0) && (r >? capacity)) || closed
  then (cond_Broadcast;; ret false)
  else
    t <- time_Now;;
    modify (upd_heap (fun h => <[wk := stamp t (worker_at h wk)]> h));;
    ret true.

(** [revertWorker] from the moment [p.lock.Lock()] returns. *)
Definition revertWorker_locked (wk : nat) : M bool :=
  lock_Lock;;
  closed <- IsClosed;;
  if closed then (lock_Unlock;; ret false)
  else
    ok <- workers_insert wk;;
    if negb ok then (lock_Unlock;; ret false)
    else (cond_Signal;; lock_Unlock;; ret true).

(** [func (p *Pool) revertWorker(worker *goWorker) bool]. *)
Definition revertWorker (others : World -> World) (wk : nat) : M bool :=
  ok <- revertWorker_check wk;;
  if ok then (blocked others;; revertWorker_locked wk) else ret false.

(** The deferred function of the worker's goroutine; [panic] is what
    [recover()] returns. The goroutine is gone afterwards. *)
Definition worker_exit (wk : nat) (panic : option nat) : M unit :=
  addRunning (-1);;
  workerCache_Put wk;;
  o <- get (fun w => options (pool w));;
  match panic with
  | Some v =>
      match PanicHandler o with
      | Some ph => modify (emit (EvPanicHandler ph v))
      | None => modify (emit (EvLogPanic (Logger o) v))
      end
  | None => ret tt
  end;;
  cond_Signal;;
  modify (upd_goroutines (delete wk)).

(** The loop body of the goroutine once it has received [f]: up to the
    return on [nil], or into the call [f()]. *)
Definition worker_received (wk : nat) (f : Task) : M unit :=
  match f with
  | Nil => worker_exit wk None
  | Func f => modify (fun w => emit (EvCall wk f) (upd_goroutines (insert wk (Executing f)) w))
  end.

(** The goroutine after [f()] returned: [revertWorker] up to the lock. *)
Definition worker_returned (wk : nat) : M unit :=
  ok <- revertWorker_check wk;;
  if ok then modify (upd_goroutines (insert wk Reverting))
  else worker_exit wk None.

(** The goroutine when [f()] panicked with value [v]. *)
Definition worker_panicked (wk : nat) (v : nat) : M unit :=
  worker_exit wk (Some v).

(** The goroutine once [revertWorker] has the lock: back to the receive
    when it returns [true], out when it returns [false]. *)
Definition worker_reverted (wk : nat) : M unit :=
  ok <- revertWorker_locked wk;;
  if ok then modify (upd_goroutines (insert wk Receiving))
  else worker_exit wk None.

(** The deferred function of [purgePeriodically]; the scavenger is gone
    afterwards. *)
Definition purge_exit (ctx : nat) : M unit :=
  modify (upd_pool (set_heartbeatDone 1));;
  modify (upd_scavengers (delete ctx)).

(** The scavenger when its ticker fires: out if the pool is closed, else
    on to take the lock. *)
Definition purge_tick (ctx : nat) : M unit :=
  closed <- IsClosed;;
  if closed then purge_exit ctx
  else modify (upd_scavengers (insert ctx Purging)).

(** The scavenger from the moment it has the lock to its next [select]. *)
Definition purge_locked (ctx : nat) : M unit :=
  lock_Lock;;
  o <- get (fun w => options (pool w));;
  expiredWorkers <- workers_retrieveExpiry (ExpiryDuration o);;
  lock_Unlock;;
  send_nil expiredWorkers;;
  r <- Running;;
  wt <- Waiting;;
  fr <- Free;;
  (if (r =? 0) || ((wt >? 0) && (fr >? 0)) then cond_Broadcast else ret tt);;
  modify (upd_scavengers (insert ctx Selecting)).

(** The result of [NewPool]: a pool (the world that holds it), or an
    error and no pool. *)
Inductive created : Type :=
| Created (w : World)
| Failed (e : error).

(** The world around a pool value just built by [NewPool]. *)
Definition world_of (p : Pool) : World :=
  mkWorld p ∅ 0%nat ∅ ∅ ∅ 0%nat 0%nat [] 0 [].

(** [func NewPool(size int, options ...Option)], [opts]
    being what [loadOptions] made of the options. *)
Definition NewPool (size : Z) (opts : Options) : created :=
  let size := if size <=? 0 then -1 else size in
  let checked :=
    if negb (DisablePurge opts) then
      if ExpiryDuration opts <? 0 then None
      else if ExpiryDuration opts =? 0
           then Some (with_ExpiryDuration DefaultCleanIntervalTime opts)
           else Some opts
    else Some opts in
  match checked with
  | None => Failed ErrInvalidPoolExpiry
  | Some opts =>
      let opts := match Logger opts with
                  | None => with_Logger (Some defaultLogger) opts
                  | Some _ => opts
                  end in
      let p := mkPool (int32 size) 0 SpinLock.NewSpinLock (newWorkerArray stackType 0)
                      0 [] [] 0 0 None opts in
      let made :=
        if PreAlloc opts then
          if size =? -1 then None
          else Some (set_workers (newWorkerArray loopQueueType size) p)
        else Some (set_workers (newWorkerArray stackType 0) p) in
      match made with
      | None => Failed ErrInvalidPreAllocSize
      | Some p => Created (snd (start_heartbeat (world_of p)))
      end
  end.


(** ** The pool and its goroutines as a transition system *)

(** One step: a goroutine runs from one blocking operation to the next. *)
Inductive op : Type :=
| OpSubmit (g : nat) (t : Task)   (* [g] calls [Submit(t)], up to the lock *)
| OpSubmitLocked (g : nat)        (* [g] gets the lock in [retrieveWorker] *)
| OpAwake (g : nat)               (* [g], woken, comes out of [cond.Wait] *)
| OpSpawn (g : nat)               (* [g] goes on from the unlock to [spawnWorker()] *)
| OpTune (size : Z)               (* a call of [Tune(size)] *)
| OpRelease                       (* a call of [Release], up to the lock *)
| OpReleaseTimeout                (* a call of [ReleaseTimeout], up to the lock *)
| OpReleaseLocked                 (* a call of [Release] gets the lock *)
| OpReboot                        (* a call of [Reboot] *)
| OpReceive (wk : nat)            (* worker [wk] receives from its channel *)
| OpReturned (wk : nat)           (* the task of [wk] returns *)
| OpPanicked (wk v : nat)         (* the task of [wk] panics with [v] *)
| OpReverted (wk : nat)           (* [wk] gets the lock in [revertWorker] *)
| OpTick (ctx : nat)              (* the ticker of scavenger [ctx] fires *)
| OpDone (ctx : nat)              (* scavenger [ctx] sees its context cancelled *)
| OpPurge (ctx : nat)             (* scavenger [ctx] gets the lock *)
| OpCacheDrop                     (* the free-object cache forgets its content *)
| OpTimePasses (d : Z).           (* the clock advances by [d] *)

(** The end of a stretch of [Submit] by goroutine [g] with task [t]. *)
Definition settle (g : nat) (t : Task) (r : submitted * World) : World :=
  match r with
  | (Returned e, w) => emit (EvReturn g e) (upd_callers (delete g) w)
  | (Blocked, w) => upd_callers (insert g (InWait t)) w
  end.

(** The end of a stretch of [Submit] under the lock: as [settle], or
    the lock released and [spawnWorker()] still to be called. *)
Definition advance (g : nat) (t : Task) (r : located * World) : World :=
  match r with
  | (Got a, w) => settle g t (Submit_handoff t a w)
  | (ToSpawn, w) => upd_callers (insert g (Spawning t)) w
  end.

Definition note_release (swapped : bool) (w : World) : World :=
  if swapped then set_releasing (S (releasing w)) w else w.

(** The step function: [None] when the goroutine is not at that point. *)
Definition step (o : op) (w : World) : option World :=
  match o with
  | OpSubmit g t =>
      match callers w !! g with
      | Some _ => None
      | None =>
          let '(closed, w) := IsClosed w in
          if closed then Some (emit (EvReturn g (Some ErrPoolClosed)) w)
          else Some (upd_callers (insert g (AtLock t)) w)
      end
  | OpSubmitLocked g =>
      match callers w !! g with
      | Some (AtLock t) => Some (advance g t (retrieveWorker_locked g w))
      | _ => None
      end
  | OpAwake g =>
      match callers w !! g with
      | Some (InWait t) =>
          if bool_decide (g ∈ cond (pool w)) then None
          else Some (advance g t (retrieveWorker_awake_locked g w))
      | _ => None
      end
  | OpSpawn g =>
      match callers w !! g with
      | Some (Spawning t) => Some (settle g t (Submit_spawn t w))
      | _ => None
      end
  | OpTune size =>
      if (min_int <=? size) && (size <=? max_int)
      then Some (snd (Tune size w))
      else None
  | OpRelease =>
      let '(swapped, w) := Release_cas w in
      Some (note_release swapped w)
  | OpReleaseTimeout =>
      let '(e, w) := ReleaseTimeout_enter w in
      match e with
      | Some swapped => Some (note_release swapped w)
      | None => Some w
      end
  | OpReleaseLocked =>
      match releasing w with
      | O => None
      | S n => Some (set_releasing n (snd (Release_locked w)))
      end
  | OpReboot => Some (snd (Reboot w))
  | OpReceive wk =>
      match goroutines w !! wk with
      | Some Receiving =>
          match chan_recv wk w with
          | Some (f, w) => Some (snd (worker_received wk f w))
          | None => None
          end
      | _ => None
      end
  | OpReturned wk =>
      match goroutines w !! wk with
      | Some (Executing _) => Some (snd (worker_returned wk w))
      | _ => None
      end
  | OpPanicked wk v =>
      match goroutines w !! wk with
      | Some (Executing _) => Some (snd (worker_panicked wk v w))
      | _ => None
      end
  | OpReverted wk =>
      match goroutines w !! wk with
      | Some Reverting => Some (snd (worker_reverted wk w))
      | _ => None
      end
  | OpTick ctx =>
      match scavengers w !! ctx with
      | Some Selecting => Some (snd (purge_tick ctx w))
      | _ => None
      end
  | OpDone ctx =>
      match scavengers w !! ctx with
      | Some Selecting =>
          if bool_decide (ctx ∈ cancelled w) then Some (snd (purge_exit ctx w))
          else None
      | _ => None
      end
  | OpPurge ctx =>
      match scavengers w !! ctx with
      | Some Purging => Some (snd (purge_locked ctx w))
      | _ => None
      end
  | OpCacheDrop => Some (upd_pool (set_workerCache []) w)
  | OpTimePasses d =>
      if 0 <=? d then Some (set_now (now w + d) w) else None
  end.

(** A schedule, step after step. *)
Fixpoint exec (ops : list op) (w : World) : option World :=
  match ops with
  | [] => Some w
  | o :: ops' =>
      match step o w with
      | Some w' => exec ops' w'
      | None => None
      end
  end.

(** ** Runs from a new pool, and what stays true along them *)

(** The world [NewPool] returns a pool in, if it returns one. *)
Definition made (c : created) : option World :=
  match c with
  | Created w => Some w
  | Failed _ => None
  end.

(** [NewPool(size, opts)] followed by a schedule. *)
Definition run_from (size : Z) (opts : Options) (ops : list op) : option World :=
  match made (NewPool size opts) with
  | Some w => exec ops w
  | None => None
  end.

(** [NewPool(size, opts)] followed by calls of [Tune], one per size. *)
Fixpoint tunes (sizes : list Z) (w : World) : World :=
  match sizes with
  | [] => w
  | size :: sizes' => tunes sizes' (snd (Tune size w))
  end.

(** A world that some schedule leads to from some new pool. *)
Definition reachable (w : World) : Prop :=
  exists size opts ops, in_int size /\ run_from size opts ops = Some w.

(** An open pool has a cancel function for its scavenger's context. *)
Definition heartbeat_kept (w : World) : Prop :=
  state (pool w) = OPENED -> stopHeartbeat (pool w) <> None.

(** The structs in the free-object cache are those of no live goroutine,
    each is there once, and no address from [nx] on is in use. *)
Definition idle_cache (cache : list nat) (gs : gmap nat wstate) (nx : nat) : Prop :=
  NoDup cache
  /\ (forall wk, wk ∈ cache -> gs !! wk = None)
  /\ (forall wk, (nx <= wk)%nat -> gs !! wk = None /\ wk ∉ cache).

Definition cache_idle (w : World) : Prop :=
  idle_cache (workerCache (pool w)) (goroutines w) (next_worker w).

(** What the end of [Submit] makes of the result of [retrieveWorker]. *)
Definition handed (t : Task) (r : acquired * World) (s : submitted * World) : Prop :=
  match r with
  | (NoWorker, w1) => s = (Returned (Some ErrPoolOverload), w1)
  | (Worker wk, w1) =>
      fst s = Returned None
      /\ task (worker_at (heap (snd s)) wk) = task (worker_at (heap w1) wk) ++ [t]
      /\ (forall wk', wk' <> wk -> heap (snd s) !! wk' = heap w1 !! wk')
      /\ log (snd s) = log w1 ++ [EvSend wk t]
      /\ pool (snd s) = pool w1
      /\ goroutines (snd s) = goroutines w1
  | (MustWait, w1) => s = (Blocked, w1)
  end.

(** Options with every field zero, as [loadOptions] gives without
    arguments, and the same with one flag set. *)
Definition no_options : Options := mkOptions 0 false 0 false None None false.
Definition nonblocking : Options := mkOptions 0 false 0 true None None false.
Definition purge_disabled (expiry : Z) : Options :=
  mkOptions expiry false 0 false None None true.

(** ** Measures over a world *)

(** The running counter is the number of live worker goroutines, as an
    [int32] holds it. *)
Definition tally (run : Z) (gs : gmap nat wstate) : Prop :=
  run = int32 (Z.of_nat (size gs)).

Definition counted (w : World) : Prop :=
  tally (running (pool w)) (goroutines w).

(** The callers of [Submit] that are between the [addWaiting(1)] and the
    [addWaiting(-1)] of [retrieveWorker]. *)
Definition in_wait (c : cstate) : bool :=
  match c with
  | InWait _ => true
  | AtLock _ | Spawning _ => false
  end.

Definition waiters (cs : gmap nat cstate) : nat :=
  size (filter (fun kv : nat * cstate => in_wait (snd kv) = true) cs).

(** The lock along a log: from the lock being held or not, whether it is
    held at the end; [None] if the log takes it while held or releases it
    while free. *)
Fixpoint lock_trace (held : bool) (l : list event) : option bool :=
  match l with
  | [] => Some held
  | EvLock :: l' => if held then None else lock_trace true l'
  | EvUnlock :: l' => if held then lock_trace false l' else None
  | _ :: l' => lock_trace held l'
  end.

(** The lock is free, in the pool and by the log. *)
Definition lock_free (w : World) : Prop :=
  lock (pool w) = 0 /\ lock_trace false (log w) = Some false.

(** The waiting counter is the number of waiting callers, as an [int32]
    holds it. *)
Definition wtally (wt : Z) (cs : gmap nat cstate) : Prop :=
  wt = int32 (Z.of_nat (waiters cs)).

(** The waiting counter is the number of waiting callers and is at most
    [m]. *)
Definition wcap (m wt : Z) (cs : gmap nat cstate) : Prop :=
  wt = Z.of_nat (waiters cs) /\ wt <= m.

Definition waiting_capped (m : Z) (w : World) : Prop :=
  MaxBlockingTasks (options (pool w)) = m
  /\ wcap m (waiting (pool w)) (callers w).

Definition waiting_counted (w : World) : Prop :=
  wtally (waiting (pool w)) (callers w).

(** The sizes that the calls of [Tune] in a schedule ask for all fit
    [int32]. *)
Definition tune_sizes_fit (ops : list op) : Prop :=
  Forall (fun o => match o with OpTune size => size <= max_int32 | _ => True end) ops.

(** No idle worker to detach, and no room to start one. *)
Definition saturated (w : World) : Prop :=
  fst (wa_detach (workers (pool w))) = None
  /\ capacity (pool w) <> -1
  /\ capacity (pool w) <= running (pool w).

(** The steps of the goroutine of worker [wk]. *)
Definition worker_op (wk : nat) (o : op) : Prop :=
  match o with
  | OpReceive wk' | OpReturned wk' | OpReverted wk' | OpPanicked wk' _ => wk' = wk
  | _ => False
  end.

(** The contexts in use are older than the next one to be made, and the
    one whose cancel function the pool holds has not been cancelled. *)
Definition ctx_fresh (w : World) : Prop :=
  (forall c, stopHeartbeat (pool w) = Some c -> (c < next_ctx w)%nat /\ (c ∉ cancelled w))
  /\ (forall c, c ∈ cancelled w -> (c < next_ctx w)%nat).

(** A context that nothing can cancel any more: it is not cancelled and
    the pool no longer holds its cancel function. *)
Definition orphan (c : nat) (w : World) : Prop :=
  (c ∉ cancelled w)
  /\ stopHeartbeat (pool w) <> Some c
  /\ (c < next_ctx w)%nat.

(** The capacity is -1 or a positive [int32]. *)
Definition capacity_sound (w : World) : Prop :=
  capacity (pool w) = -1 \/ 1 <= capacity (pool w) <= max_int32.

(** The pool is pre-allocated and its capacity is [size]. *)
Definition prealloc_fixed (size : Z) (w : World) : Prop :=
  PreAlloc (options (pool w)) = true /\ capacity (pool w) = size.

(** A step that does not ask [Tune] for a size beyond [int32]. *)
Definition tune_fits (o : op) : Prop :=
  match o with
  | OpTune size => size <= max_int32
  | _ => True
  end.

(** The values waiting on the channel of the worker at an address. *)
Definition chan (h : gmap nat goWorker) (wk : nat) : list Task :=
  task (worker_at h wk).

(** The heap after [send_nil ws]. *)
Fixpoint nil_sent (ws : list nat) (h : gmap nat goWorker) : gmap nat goWorker :=
  match ws with
  | [] => h
  | wk :: ws' => nil_sent ws' (<[wk := push_task Nil (worker_at h wk)]> h)
  end.

(** The idle queue holds no worker twice; a worker in it has its goroutine
    blocked on an empty channel; a goroutine blocked on its channel has at
    most one value to receive; and the channel of any other worker is
    empty. *)
Definition tidy3 (q : list nat) (gs : gmap nat wstate) (h : gmap nat goWorker) : Prop :=
  NoDup q
  /\ (forall wk, wk ∈ q -> gs !! wk = Some Receiving /\ chan h wk = [])
  /\ (forall wk, match gs !! wk with
                 | Some Receiving => (length (chan h wk) <= 1)%nat
                 | _ => chan h wk = []
                 end).

Definition tidy (w : World) : Prop :=
  tidy3 (wa_items (workers (pool w))) (goroutines w) (heap w).

End Ants.

(** * Properties *)

(** ** Fixed-width integers *)

Section IntFacts.
Import Int.

Lemma int32_range x : in_int32 (int32 x).
Proof.
  unfold in_int32, int32, wrap, min_int32, max_int32.
  pose proof (Z.mod_pos_bound (x + 2 ^ (32 - 1)) (2 ^ 32) ltac:(lia)).
  change (2 ^ (32 - 1)) with 2147483648 in *.
  change (2 ^ 32) with 4294967296 in *.
  change (2 ^ 31) with 2147483648. lia.
Qed.

Lemma int32_id x : in_int32 x -> int32 x = x.
Proof.
  unfold in_int32, int32, wrap, min_int32, max_int32.
  change (2 ^ (32 - 1)) with 2147483648.
  change (2 ^ 32) with 4294967296.
  change (2 ^ 31) with 2147483648.
  intros H. rewrite Z.mod_small by lia. lia.
Qed.

Lemma int64_id x : in_int x -> int64 x = x.
Proof.
  unfold in_int, int64, wrap, min_int, max_int.
  change (2 ^ (64 - 1)) with 9223372036854775808.
  change (2 ^ 64) with 18446744073709551616.
  change (2 ^ 63) with 9223372036854775808.
  intros H. rewrite Z.mod_small by lia. lia.
Qed.

Lemma int32_one : int32 1 = 1.
Proof. reflexivity. Qed.

Lemma int32_minus_one : int32 (-1) = -1.
Proof. reflexivity. Qed.

End IntFacts.

(** ** The spin lock *)

Section SpinLockFacts.
Import SpinLock.

Lemma yield_loop_repeat n i backoff :
  Z.of_nat n = backoff - i -> yield_loop n i backoff = repeat Gosched n.
Proof.
  revert i. induction n as [|n IH]; intros i H; simpl; [reflexivity|].
  destruct (Z.ltb_spec i backoff); [|lia].
  f_equal. apply IH. lia.
Qed.

Lemma yields_repeat backoff :
  0 <= backoff -> yields backoff = repeat Gosched (Z.to_nat backoff).
Proof. intros H. apply yield_loop_repeat. lia. Qed.

Lemma backoff_at_bounds k : 1 <= backoff_at k <= 16.
Proof.
  unfold backoff_at.
  assert (1 <= 2 ^ Z.of_nat k)
    by (apply Z.pow_le_mono_r with (b := 0) (a := 2) (c := Z.of_nat k); lia).
  lia.
Qed.

Lemma next_backoff_at k : next_backoff (backoff_at k) = backoff_at (S k).
Proof.
  unfold next_backoff, backoff_at, maxBackoff.
  rewrite Z.shiftl_mul_pow2 by lia.
  replace (Z.of_nat (S k)) with (Z.of_nat k + 1) by lia.
  rewrite Z.pow_add_r by lia. change (2 ^ 1) with 2.
  destruct (le_lt_dec 4 k) as [Hk|Hk].
  - assert (16 <= 2 ^ Z.of_nat k).
    { change 16 with (2 ^ 4). apply Z.pow_le_mono_r; lia. }
    destruct (Z.ltb_spec (Z.min (2 ^ Z.of_nat k) 16) 16); lia.
  - do 4 (destruct k as [|k]; [vm_compute; reflexivity|]). lia.
Qed.

Lemma Lock_from_rounds k seen :
  Lock_from (backoff_at k) seen =
    if decide (failures seen < length seen)%nat
    then (failed_rounds k (failures seen) ++ [CasSucceeded], Acquired 1)
    else (failed_rounds k (failures seen), Spinning (backoff_at (k + failures seen))).
Proof.
  revert k. induction seen as [|v seen IH]; intros k; simpl.
  - rewrite Nat.add_0_r. reflexivity.
  - unfold CompareAndSwapUint32. destruct (Z.eqb_spec v 0) as [->|Hv]; simpl.
    + reflexivity.
    + rewrite next_backoff_at, IH.
      rewrite yields_repeat by (pose proof (backoff_at_bounds k); lia).
      unfold failed_rounds. simpl.
      replace (k + S (failures seen))%nat with (S k + failures seen)%nat by lia.
      destruct (decide (failures seen < length seen)%nat);
        destruct (decide (S (failures seen) < S (length seen))%nat); try lia;
        simpl; rewrite <- ?app_assoc; reflexivity.
Qed.

(** C7. In [Lock], every failed compare-and-swap is followed by as many
    [runtime.Gosched()] as the backoff counter holds, the counter being 1 at
    the first failure and doubled after each failure up to 16 (so 1, 2, 4,
    8, 16, 16, ... yields); the loop ends at the first successful swap,
    which leaves 1 in the word. [Unlock] stores 0 whatever the word holds. *)
Theorem Lock_backoff_schedule (seen : list Z) :
  Lock seen =
    (if decide (failures seen < length seen)%nat
     then (failed_rounds 0 (failures seen) ++ [CasSucceeded], Acquired 1)
     else (failed_rounds 0 (failures seen), Spinning (backoff_at (failures seen))))
  /\ map backoff_at (seq 0 6) = [1; 2; 4; 8; 16; 16]
  /\ (forall k, backoff_at (4 + k) = 16)
  /\ (forall sl, Unlock sl = 0).
Proof.
  split; [|split; [|split]].
  - unfold Lock. change 1 with (backoff_at 0). apply Lock_from_rounds.
  - reflexivity.
  - intros k. unfold backoff_at.
    assert (16 <= 2 ^ Z.of_nat (4 + k)).
    { change 16 with (2 ^ 4). apply Z.pow_le_mono_r; lia. }
    lia.
  - reflexivity.
Qed.

End SpinLockFacts.

(** ** The pool: construction and tuning *)

Import Int Ants.

Ltac unfold_go :=
  cbv [Submit Submit_locked Submit_awake Submit_spawn Submit_handoff
       retrieveWorker retrieveWorker_awake retrieveWorker_locked
       retrieveWorker_awake_locked unlocked advance elapse
       retry spawnWorker run Tune Release Release_cas
       Release_locked Reboot start_heartbeat WithCancel cancel
       go_purgePeriodically ReleaseTimeout ReleaseTimeout_enter
       ReleaseTimeout_wait ReleaseTimeout_poll ReleaseTimeout_awake
       revertWorker revertWorker_check revertWorker_locked worker_exit
       worker_received worker_returned worker_panicked worker_reverted
       purge_exit purge_tick purge_locked workers_reset workers_detach
       workers_insert workers_retrieveExpiry chan_send workerCache_Get
       workerCache_Put cond_Wait cond_Signal cond_Broadcast lock_Lock
       lock_Unlock CompareAndSwapState addRunning addWaiting IsClosed Free
       Cap Running Waiting time_Now blocked settle note_release
       bind ret get modify] in *.

Ltac to_prop :=
  repeat match goal with
  | H : negb _ = true |- _ => apply negb_true_iff in H
  | H : negb _ = false |- _ => apply negb_false_iff in H
  | H : _ || _ = true |- _ => apply orb_true_iff in H
  | H : _ || _ = false |- _ => apply orb_false_iff in H as [? ?]
  | H : _ && _ = true |- _ => apply andb_true_iff in H as [? ?]
  | H : _ && _ = false |- _ => apply andb_false_iff in H
  | H : (_ =? _) = true |- _ => apply Z.eqb_eq in H
  | H : (_ =? _) = false |- _ => apply Z.eqb_neq in H
  | H : (_ <? _) = true |- _ => apply Z.ltb_lt in H
  | H : (_ <? _) = false |- _ => apply Z.ltb_ge in H
  | H : (_ <=? _) = true |- _ => apply Z.leb_le in H
  | H : (_ <=? _) = false |- _ => apply Z.leb_gt in H
  | H : (_ >? _) = true |- _ => rewrite Z.gtb_ltb in H
  | H : (_ >? _) = false |- _ => rewrite Z.gtb_ltb in H
  | H : (_ >=? _) = true |- _ => rewrite Z.geb_leb in H
  | H : (_ >=? _) = false |- _ => rewrite Z.geb_leb in H
  end.

(** C4, as the code has it. When purging is enabled, a negative expiry
    interval makes [NewPool] fail with [ErrInvalidPoolExpiry] and a zero one
    is replaced by the default; pre-allocation with a size that is not
    positive makes it fail with an invalid-configuration error; when
    purging is disabled the expiry interval is neither checked nor
    replaced. *)
Theorem NewPool_configuration (size : Z) (opts : Options) :
  (DisablePurge opts = false -> ExpiryDuration opts < 0 ->
   NewPool size opts = Failed ErrInvalidPoolExpiry)
  /\ (PreAlloc opts = true -> size <= 0 ->
      exists e, NewPool size opts = Failed e /\ kind_of e = InvalidConfiguration)
  /\ (DisablePurge opts = false -> ExpiryDuration opts = 0 ->
      PreAlloc opts = false \/ 0 < size ->
      exists w, NewPool size opts = Created w
                /\ ExpiryDuration (options (pool w)) = DefaultCleanIntervalTime)
  /\ (DisablePurge opts = true ->
      PreAlloc opts = false \/ 0 < size ->
      exists w, NewPool size opts = Created w
                /\ ExpiryDuration (options (pool w)) = ExpiryDuration opts).
Proof.
  unfold NewPool. destruct opts as [ex pa mb nb ph lg dp]; simpl.
  repeat split.
  - intros -> H. simpl. destruct (Z.ltb_spec ex 0); [reflexivity|lia].
  - intros -> H. destruct (Z.leb_spec size 0); [|lia].
    destruct dp; simpl.
    + destruct lg; simpl; eexists; (split; reflexivity).
    + destruct (ex <? 0); [eexists; split; reflexivity|].
      destruct (ex =? 0); destruct lg; simpl; eexists; (split; reflexivity).
  - intros -> -> H. simpl.
    destruct lg; simpl; destruct pa; simpl;
      try (destruct H as [H|H]; [discriminate|]);
      try (destruct (Z.leb_spec size 0); [lia|]);
      try (destruct (Z.eqb_spec size (-1)); [lia|]);
      eexists; (split; [reflexivity|]); unfold start_heartbeat, bind; simpl; reflexivity.
  - intros -> H. simpl.
    destruct lg; simpl; destruct pa; simpl;
      try (destruct H as [H|H]; [discriminate|]);
      try (destruct (Z.leb_spec size 0); [lia|]);
      try (destruct (Z.eqb_spec size (-1)); [lia|]);
      eexists; (split; [reflexivity|]); unfold start_heartbeat, bind; simpl; reflexivity.
Qed.

Lemma NewPool_configuration_witness :
  NewPool 3 (mkOptions (-5) false 0 false None None false) = Failed ErrInvalidPoolExpiry
  /\ (exists e, NewPool 0 (mkOptions 7 true 0 false None None false) = Failed e
                /\ kind_of e = InvalidConfiguration)
  /\ (exists w, NewPool 3 no_options = Created w
                /\ ExpiryDuration (options (pool w)) = DefaultCleanIntervalTime)
  /\ (exists w, NewPool 3 (purge_disabled (-5)) = Created w
                /\ ExpiryDuration (options (pool w)) = -5).
Proof.
  split; [|split; [|split]].
  - apply (proj1 (NewPool_configuration 3 (mkOptions (-5) false 0 false None None false)));
      [reflexivity|simpl; lia].
  - apply (proj1 (proj2 (NewPool_configuration 0 (mkOptions 7 true 0 false None None false))));
      [reflexivity|lia].
  - apply (proj1 (proj2 (proj2 (NewPool_configuration 3 no_options))));
      [reflexivity|reflexivity|right; lia].
  - apply (proj2 (proj2 (proj2 (NewPool_configuration 3 (purge_disabled (-5))))));
      [reflexivity|right; lia].
Defined.

(** C4 as stated fails: with purging disabled, [NewPool] accepts a negative
    expiry interval. *)
Lemma NewPool_negative_expiry_accepted :
  ExpiryDuration (purge_disabled (-1)) < 0
  /\ DisablePurge (purge_disabled (-1)) = true
  /\ NewPool 5 (purge_disabled (-1)) =
       Created (snd (start_heartbeat
                       (world_of (mkPool 5 0 0 (newWorkerArray stackType 0) 0 [] [] 0 0 None
                                         (with_Logger (Some defaultLogger)
                                                      (purge_disabled (-1))))))).
Proof. split; [vm_compute; reflexivity|]. split; reflexivity. Qed.

(** [Tune] with a size that [int32] holds, on a pool whose capacity field
    is one: the four cases in which it does nothing, and else the new
    capacity and the wake-up. *)
Lemma Tune_in_range (size : Z) (w : World) :
  in_int32 size -> in_int32 (capacity (pool w)) ->
  Tune size w =
    (tt,
     if (capacity (pool w) =? -1) || (size <=? 0) || (size =? capacity (pool w))
        || PreAlloc (options (pool w))
     then w
     else
       let w1 := upd_pool (set_capacity size) w in
       if size =? capacity (pool w) + 1 then snd (cond_Signal w1)
       else if capacity (pool w) <? size then snd (cond_Broadcast w1)
            else w1).
Proof.
  intros Hs Hc. unfold Tune, bind, get, Cap, ret, modify. simpl.
  destruct ((capacity (pool w) =? -1) || (size <=? 0) || (size =? capacity (pool w))
            || PreAlloc (options (pool w))); [reflexivity|].
  rewrite (int32_id size Hs).
  rewrite int64_id.
  2:{ unfold in_int32, in_int, min_int32, max_int32, min_int, max_int in *.
      change (2 ^ 31) with 2147483648 in *.
      change (2 ^ 63) with 9223372036854775808. lia. }
  rewrite Z.gtb_ltb.
  destruct (Z.eqb_spec (size - capacity (pool w)) 1) as [E|E];
    destruct (Z.eqb_spec size (capacity (pool w) + 1)) as [E'|E']; try lia.
  - destruct (Z.ltb_spec (capacity (pool w)) size); [reflexivity|lia].
  - destruct (capacity (pool w) <? size); reflexivity.
Qed.

(** C5 at a size that [int32] does not hold: on a pool of capacity 8,
    [Tune(4294967299)] leaves capacity 3, not the size asked for, and
    broadcasts although the capacity went down. *)
Theorem Tune_truncates_size :
  (fun w => (capacity (pool w), log w)) <$> run_from 8 no_options [] =
    Some (8, [EvGoPurge 0])
  /\ (fun w => (capacity (pool w), log w)) <$> run_from 8 no_options [OpTune 4294967299] =
       Some (3, [EvGoPurge 0; EvBroadcast []]).
Proof. split; vm_compute; reflexivity. Qed.

(** [NewPool] and [Tune] with sizes that [int32] holds leave a capacity of
    -1 or a positive one. *)
Lemma Tune_capacity_positive (size : Z) (w : World) :
  size <= max_int32 ->
  capacity (pool w) = -1 \/ 1 <= capacity (pool w) <= max_int32 ->
  capacity (pool (snd (Tune size w))) = -1
  \/ 1 <= capacity (pool (snd (Tune size w))) <= max_int32.
Proof.
  intros Hs Hc. unfold_go. repeat case_match; simplify_eq/=; try done.
  all: to_prop; right; rewrite int32_id; unfold in_int32, min_int32, max_int32 in *; lia.
Qed.

Lemma NewPool_capacity_positive (size : Z) (opts : Options) (w : World) :
  size <= max_int32 ->
  NewPool size opts = Created w ->
  capacity (pool w) = -1 \/ 1 <= capacity (pool w) <= max_int32.
Proof.
  intros Hs. unfold NewPool. unfold_go.
  repeat case_match; simplify_eq/=; try done; intros; simplify_eq/=; to_prop;
    try (left; reflexivity);
    right; rewrite int32_id; unfold in_int32, min_int32, max_int32 in *; lia.
Qed.

Lemma tunes_capacity_positive (sizes : list Z) (w : World) :
  Forall (fun size => size <= max_int32) sizes ->
  capacity (pool w) = -1 \/ 1 <= capacity (pool w) <= max_int32 ->
  capacity (pool (tunes sizes w)) = -1
  \/ 1 <= capacity (pool (tunes sizes w)) <= max_int32.
Proof.
  intros Hf. revert w. induction Hf as [|size sizes Hs Hf IH]; intros w Hc; [done|].
  simpl. apply IH. by apply Tune_capacity_positive.
Qed.

(** C10 at sizes that [int32] does not hold: [NewPool(4294967296)] makes a
    pool of capacity 0, [NewPool(2147483648)] one of capacity -2147483648,
    and [Tune(4294967296)] sets the capacity of a pool to 0. *)
Theorem capacity_zero_by_truncation :
  (fun w => capacity (pool w)) <$> run_from 4294967296 no_options [] = Some 0
  /\ (fun w => capacity (pool w)) <$> run_from 2147483648 no_options [] = Some (-2147483648)
  /\ (fun w => capacity (pool w)) <$> run_from 8 no_options [OpTune 4294967296] = Some 0.
Proof. repeat split; vm_compute; reflexivity. Qed.

(** ** The pool: submitting *)

Lemma retry_parks (g : nat) (w w1 : World) :
  retry g w = (MustWait, w1) ->
  cond (pool w1) = cond (pool w) ++ [g]
  /\ waiting (pool w1) = int32 (waiting (pool w) + 1).
Proof.
  unfold_go. repeat case_match; simplify_eq/=; try done.
  intros; simplify_eq/=. done.
Qed.

Lemma retrieveWorker_parks (g : nat) (w w1 : World) :
  retrieveWorker g w = (MustWait, w1) -> g ∈ cond (pool w1).
Proof.
  unfold retrieveWorker.
  cbv [bind ret get modify lock_Lock lock_Unlock workers_detach Cap Running spawnWorker
       retrieveWorker_locked unlocked].
  repeat case_match; simplify_eq/=; try done.
  all: intros Hr; simplify_eq/=.
  all: match goal with H : retry _ _ = _ |- _ => apply retry_parks in H as [-> _] end.
  all: apply elem_of_app; right; by left.
Qed.

Lemma retrieveWorker_awake_parks (g : nat) (w w1 : World) :
  retrieveWorker_awake g w = (MustWait, w1) -> g ∈ cond (pool w1).
Proof.
  unfold retrieveWorker_awake.
  cbv [bind ret get modify lock_Lock lock_Unlock workers_detach Cap Running
       IsClosed addWaiting spawnWorker retrieveWorker_awake_locked unlocked].
  repeat case_match; simplify_eq/=; try done.
  all: intros Hr; simplify_eq/=.
  all: match goal with H : retry _ _ = _ |- _ => apply retry_parks in H as [-> _] end.
  all: apply elem_of_app; right; by left.
Qed.

Lemma Submit_closed (others : World -> World) (g : nat) (t : Task) (w : World) :
  state (pool w) = CLOSED ->
  Submit others g t w = (Returned (Some ErrPoolClosed), w).
Proof.
  intros Hc. unfold Submit, bind, IsClosed, get, ret. simpl.
  rewrite Hc. reflexivity.
Qed.

Lemma handoff_handed (t : Task) (r : acquired * World) :
  handed t r (Submit_handoff t (fst r) (snd r)).
Proof.
  destruct r as [[wk| |] w1]; simpl; try reflexivity.
  unfold worker_at. simpl.
  split; [reflexivity|]. split; [by rewrite lookup_insert_eq|].
  split; [intros wk' Hne; by rewrite lookup_insert_ne|done].
Qed.

Lemma Submit_open (others : World -> World) (g : nat) (t : Task) (w : World) :
  state (pool w) <> CLOSED ->
  handed t (retrieveWorker g (others w)) (Submit others g t w).
Proof.
  intros Hc. unfold Submit, Submit_locked, bind, IsClosed, get, blocked, modify. simpl.
  destruct (Z.eqb_spec (state (pool w)) CLOSED) as [E|_]; [done|].
  pose proof (handoff_handed t (retrieveWorker g (others w))) as H.
  by destruct (retrieveWorker g (others w)).
Qed.

(** C2. [Submit] returns [ErrPoolClosed], and does nothing, when the pool
    is closed. Otherwise it goes by the result of [retrieveWorker] (run
    once the lock is taken, and again after each wake-up if the caller had
    to wait): no worker, it returns [ErrPoolOverload]; a worker, it sends
    the task on that worker's channel and returns [nil]; and while the
    caller is parked in [cond.Wait] it has not returned. *)
Theorem Submit_outcomes (others : World -> World) (g : nat) (t : Task) (w : World) :
  (state (pool w) = CLOSED ->
   Submit others g t w = (Returned (Some ErrPoolClosed), w))
  /\ (state (pool w) <> CLOSED ->
      handed t (retrieveWorker g (others w)) (Submit others g t w))
  /\ handed t (retrieveWorker_awake g w) (Submit_awake g t w)
  /\ (forall w1, retrieveWorker g w = (MustWait, w1) -> g ∈ cond (pool w1))
  /\ (forall w1, retrieveWorker_awake g w = (MustWait, w1) -> g ∈ cond (pool w1)).
Proof.
  split; [|split; [|split; [|split]]].
  - apply Submit_closed.
  - apply Submit_open.
  - unfold Submit_awake, bind.
    pose proof (handoff_handed t (retrieveWorker_awake g w)) as H.
    by destruct (retrieveWorker_awake g w).
  - intros w1. apply retrieveWorker_parks.
  - intros w1. apply retrieveWorker_awake_parks.
Qed.

Lemma Submit_outcomes_witness :
  match run_from 1 nonblocking [] with
  | Some w =>
      Submit (fun w => w) 1 (Func 7) (upd_pool (set_state CLOSED) w) =
        (Returned (Some ErrPoolClosed), upd_pool (set_state CLOSED) w)
      /\ handed (Func 7) (retrieveWorker 1 w) (Submit (fun w => w) 1 (Func 7) w)
      /\ fst (Submit (fun w => w) 1 (Func 7) w) = Returned None
      /\ fst (Submit (fun w => w) 2 (Func 8) (snd (Submit (fun w => w) 1 (Func 7) w))) =
           Returned (Some ErrPoolOverload)
  | None => False
  end.
Proof.
  destruct (run_from 1 nonblocking []) as [w0|] eqn:E; vm_compute in E; [|discriminate].
  injection E as <-.
  match goal with |- context [handed _ (retrieveWorker 1 ?w) _] => set (w0 := w) end.
  split; [|split; [|split]].
  - apply (proj1 (Submit_outcomes (fun w => w) 1 (Func 7) (upd_pool (set_state CLOSED) w0))).
    reflexivity.
  - apply (proj1 (proj2 (Submit_outcomes (fun w => w) 1 (Func 7) w0))).
    vm_compute. discriminate.
  - vm_compute. reflexivity.
  - vm_compute. reflexivity.
Defined.

(** ** The pool: returning a worker *)

Lemma send_nil_pool ws w : pool (snd (send_nil ws w)) = pool w.
Proof.
  revert w. induction ws as [|wk ws IH]; intros w; [reflexivity|].
  simpl. unfold bind. simpl. rewrite IH. reflexivity.
Qed.

Lemma send_nil_goroutines ws w : goroutines (snd (send_nil ws w)) = goroutines w.
Proof.
  revert w. induction ws as [|wk ws IH]; intros w; [reflexivity|].
  simpl. unfold bind. simpl. rewrite IH. reflexivity.
Qed.

Lemma send_nil_next_worker ws w : next_worker (snd (send_nil ws w)) = next_worker w.
Proof.
  revert w. induction ws as [|wk ws IH]; intros w; [reflexivity|].
  simpl. unfold bind. simpl. rewrite IH. reflexivity.
Qed.

Lemma chan_recv_frame wk w f w1 :
  chan_recv wk w = Some (f, w1) ->
  pool w1 = pool w /\ goroutines w1 = goroutines w /\ next_worker w1 = next_worker w
  /\ log w1 = log w.
Proof.
  unfold chan_recv. intros H. repeat case_match; simplify_eq/=. done.
Qed.

Ltac use_send_nil :=
  repeat match goal with
  | H : send_nil ?ws ?w = (_, ?w1) |- _ =>
      let E := fresh "E" in
      pose proof (send_nil_pool ws w) as E; rewrite H in E; simpl in E;
      let E2 := fresh "E" in
      pose proof (send_nil_goroutines ws w) as E2; rewrite H in E2; simpl in E2;
      let E3 := fresh "E" in
      pose proof (send_nil_next_worker ws w) as E3; rewrite H in E3; simpl in E3;
      clear H; rewrite ?E, ?E2, ?E3 in *; simpl in *
  end.

Ltac use_chan_recv :=
  repeat match goal with
  | H : chan_recv ?wk ?w = Some (_, ?w1) |- _ =>
      let E := fresh "E" in
      let E2 := fresh "E" in
      let E3 := fresh "E" in
      destruct (chan_recv_frame _ _ _ _ H) as (E & E2 & E3 & _); clear H;
      rewrite ?E, ?E2, ?E3 in *
  end.

Lemma revertWorker_refused (others : World -> World) (wk : nat) (w : World) :
  0 < capacity (pool w) < running (pool w) \/ state (pool w) = CLOSED ->
  revertWorker others wk w =
    (false, emit (EvBroadcast (cond (pool w))) (upd_pool (set_cond []) w)).
Proof.
  intros H. unfold_go. simpl.
  destruct (Z.eqb_spec (state (pool w)) CLOSED) as [E|E].
  - rewrite orb_true_r. reflexivity.
  - destruct H as [[H1 H2]|H]; [|done].
    rewrite !Z.gtb_ltb.
    destruct (Z.ltb_spec 0 (capacity (pool w))); [|lia].
    destruct (Z.ltb_spec (capacity (pool w)) (running (pool w))); [|lia].
    reflexivity.
Qed.

(** [revertWorker], path by path. It fails, waking every waiter,
    when the running count exceeds a positive capacity or the pool is
    closed. Otherwise it stamps the worker with the clock and waits for the
    lock; in the world it finds when it has the lock, it fails if the pool
    is closed, fails if the queue refuses the worker, and else inserts the
    worker, wakes the waiter at the head of the wait list (one, if there
    is any) and returns [true]. *)
Lemma revertWorker_outcomes (others : World -> World) (wk : nat) (w : World) :
  (0 < capacity (pool w) < running (pool w) \/ state (pool w) = CLOSED ->
   revertWorker others wk w =
     (false, emit (EvBroadcast (cond (pool w))) (upd_pool (set_cond []) w)))
  /\ (~ 0 < capacity (pool w) < running (pool w) -> state (pool w) <> CLOSED ->
      let w1 := others (upd_heap (fun h => <[wk := stamp (now w) (worker_at h wk)]> h) w) in
      let r := revertWorker others wk w in
      (state (pool w1) = CLOSED \/ wa_insert wk (workers (pool w1)) = None ->
       fst r = false
       /\ workers (pool (snd r)) = workers (pool w1)
       /\ cond (pool (snd r)) = cond (pool w1)
       /\ log (snd r) = log w1 ++ [EvLock; EvUnlock])
      /\ (forall q, state (pool w1) <> CLOSED ->
                    wa_insert wk (workers (pool w1)) = Some q ->
                    fst r = true
                    /\ workers (pool (snd r)) = q
                    /\ cond (pool (snd r)) = tail (cond (pool w1))
                    /\ log (snd r) =
                         log w1 ++ [EvLock; EvSignal (head (cond (pool w1))); EvUnlock])).
Proof.
  split.
  - apply revertWorker_refused.
  - intros Hcap Hst w1 r. subst r w1. unfold_go. simpl.
    destruct (Z.eqb_spec (state (pool w)) CLOSED) as [E|_]; [done|].
    rewrite !Z.gtb_ltb.
    assert ((0 <? capacity (pool w)) && (capacity (pool w) <? running (pool w)) = false) as ->.
    { apply andb_false_iff.
      destruct (Z.ltb_spec 0 (capacity (pool w))); [|by left].
      destruct (Z.ltb_spec (capacity (pool w)) (running (pool w))); [lia|by right]. }
    simpl.
    set (w1 := others (upd_heap (fun h => <[wk := stamp (now w) (worker_at h wk)]> h) w)).
    split.
    + intros [Hc|Hi].
      * rewrite Hc. simpl. by rewrite <- !app_assoc.
      * destruct (state (pool w1) =? CLOSED); simpl; [by rewrite <- !app_assoc|].
        rewrite Hi. simpl. by rewrite <- !app_assoc.
    + intros q Hc Hi.
      destruct (Z.eqb_spec (state (pool w1)) CLOSED) as [E|_]; [done|].
      simpl. rewrite Hi. simpl.
      destruct (cond (pool w1)) eqn:Ec; simpl; rewrite <- ?app_assoc; simpl; done.
Qed.

Lemma revertWorker_outcomes_example :
  match run_from 1 no_options
                 [OpSubmit 1%nat (Func 7); OpSubmitLocked 1%nat; OpSpawn 1%nat; OpReceive 0%nat;
                  OpSubmit 2%nat (Func 8); OpSubmitLocked 2%nat] with
  | Some w =>
      cond (pool w) = [2%nat]
      /\ revertWorker (fun w => w) 0 (upd_pool (set_state CLOSED) w) =
           (false, emit (EvBroadcast [2%nat])
                        (upd_pool (set_cond []) (upd_pool (set_state CLOSED) w)))
      /\ fst (revertWorker (fun w => w) 0 w) = true
      /\ wa_items (workers (pool (snd (revertWorker (fun w => w) 0 w)))) = [0%nat]
      /\ cond (pool (snd (revertWorker (fun w => w) 0 w))) = []
  | None => False
  end.
Proof.
  destruct (run_from _ _ _) as [w0|] eqn:E; vm_compute in E; [|discriminate].
  injection E as <-.
  match goal with |- context [fst (revertWorker _ 0 ?w) = true] => set (w0 := w) end.
  split; [reflexivity|]. split.
  - apply (proj1 (revertWorker_outcomes (fun w => w) 0 (upd_pool (set_state CLOSED) w0))).
    right. reflexivity.
  - pose proof (proj2 (revertWorker_outcomes (fun w => w) 0 w0)) as H.
    destruct H as [_ H]; [vm_compute; intros [? ?]; discriminate|vm_compute; discriminate|].
    destruct (H (mkArray stackType 0 [0%nat])) as (H1 & H2 & H3 & _);
      [vm_compute; discriminate|reflexivity|].
    split; [exact H1|]. split; [rewrite H2; reflexivity|rewrite H3; reflexivity].
Qed.

(** On a capacity that is -1 or positive, the only ones [NewPool] and
    [Tune] mean to store, the test [capacity > 0 && Running() > capacity]
    is the test "the running count exceeds a capacity that is not
    negative". *)
Lemma revertWorker_refuses_above_capacity (others : World -> World) (wk : nat) (w : World) :
  capacity (pool w) = -1 \/ 0 < capacity (pool w) ->
  0 <= capacity (pool w) < running (pool w) \/ state (pool w) = CLOSED ->
  revertWorker others wk w =
    (false, emit (EvBroadcast (cond (pool w))) (upd_pool (set_cond []) w)).
Proof.
  intros Hc H. apply revertWorker_refused. destruct H as [H|H]; [left; lia|by right].
Qed.

(** C3 at capacity 0, the capacity that [NewPool(4294967296)] stores: a
    caller of [Submit] waits, is woken by the scavenger and starts a
    worker; when that worker's task returns the running count 1 exceeds the
    capacity 0, which is not negative, yet the test [capacity > 0] fails
    and [revertWorker] puts the worker back into the queue, signals a
    waiter and returns [true]. *)
Theorem revertWorker_at_capacity_zero :
  match run_from 4294967296 no_options
                 [OpSubmit 1%nat (Func 7); OpSubmitLocked 1%nat; OpTick 0%nat;
                  OpPurge 0%nat; OpAwake 1%nat; OpSpawn 1%nat; OpReceive 0%nat] with
  | Some w =>
      capacity (pool w) = 0 /\ running (pool w) = 1 /\ state (pool w) = OPENED
      /\ goroutines w !! 0%nat = Some (Executing 7)
      /\ fst (revertWorker (fun w => w) 0 w) = true
      /\ wa_items (workers (pool (snd (revertWorker (fun w => w) 0 w)))) = [0%nat]
      /\ log (snd (revertWorker (fun w => w) 0 w)) = log w ++ [EvLock; EvSignal None; EvUnlock]
  | None => False
  end.
Proof.
  vm_compute. repeat split; reflexivity.
Qed.

(** ** The pool: closing and rebooting *)

Lemma Release_closes (others : World -> World) (w : World) :
  (forall w, pool (others w) = pool w) ->
  state (pool w) = OPENED ->
  state (pool (snd (Release others w))) = CLOSED
  /\ capacity (pool (snd (Release others w))) = capacity (pool w)
  /\ running (pool (snd (Release others w))) = running (pool w)
  /\ options (pool (snd (Release others w))) = options (pool w)
  /\ wa_items (workers (pool (snd (Release others w)))) = []
  /\ waiting (pool (snd (Release others w))) = waiting (pool w).
Proof.
  intros Hq Ho. unfold_go. simpl. rewrite Ho. simpl.
  destruct (send_nil _ _) as [u w1] eqn:E.
  pose proof (send_nil_pool (wa_items (workers (pool (others (upd_pool (set_state CLOSED) w)))))
                (emit EvLock (upd_pool (set_lock 1) (others (upd_pool (set_state CLOSED) w)))))
    as Hp.
  rewrite Hq in Hp. rewrite Hq in E. rewrite E in Hp. simpl in Hp.
  simpl. rewrite Hp. simpl. rewrite !Hq. simpl. done.
Qed.

Lemma wa_detach_empty (q : workerArray) :
  wa_items q = [] -> wa_detach q = (None, q).
Proof. intros H. unfold wa_detach. rewrite H. simpl. by destruct (wa_kind q). Qed.

(** C6, as the code has it. On an open pool, with the other goroutines
    leaving the pool alone meanwhile: after [Release], [Submit] returns
    [ErrPoolClosed]; after [Release] and [Reboot], [Submit] does not return
    [ErrPoolClosed]: it returns [nil] when the capacity is -1 or the
    workers still running are fewer than the capacity; when they are not,
    it returns [ErrPoolOverload] if the pool is non-blocking, or if
    [MaxBlockingTasks] is not 0 and the waiting count has reached it, and
    else the caller waits in [cond.Wait]; a second [Release] changes
    nothing, and neither does [Reboot] on the open pool. *)
Theorem Release_Reboot_Submit (others : World -> World) (g : nat) (t : Task) (w : World) :
  (forall w, pool (others w) = pool w) ->
  state (pool w) = OPENED ->
  let w1 := snd (Release others w) in
  let w2 := snd (Reboot w1) in
  fst (Submit others g t w1) = Returned (Some ErrPoolClosed)
  /\ fst (Submit others g t w2) <> Returned (Some ErrPoolClosed)
  /\ (capacity (pool w) = -1 \/ running (pool w) < capacity (pool w) ->
      fst (Submit others g t w2) = Returned None)
  /\ (capacity (pool w) <> -1 -> capacity (pool w) <= running (pool w) ->
      Nonblocking (options (pool w)) = true ->
      fst (Submit others g t w2) = Returned (Some ErrPoolOverload))
  /\ (capacity (pool w) <> -1 -> capacity (pool w) <= running (pool w) ->
      Nonblocking (options (pool w)) = false ->
      fst (Submit others g t w2) =
        if negb (MaxBlockingTasks (options (pool w)) =? 0)
           && (waiting (pool w) >=? MaxBlockingTasks (options (pool w)))
        then Returned (Some ErrPoolOverload)
        else Blocked)
  /\ Release others w1 = (tt, w1)
  /\ Reboot w = (tt, w).
Proof.
  intros Hq Ho w1 w2.
  destruct (Release_closes others w Hq Ho) as (Hs & Hc & Hr & Hop & Hi & Hw).
  fold w1 in Hs, Hc, Hr, Hop, Hi, Hw.
  assert (state (pool w2) = OPENED /\ capacity (pool w2) = capacity (pool w)
          /\ running (pool w2) = running (pool w) /\ options (pool w2) = options (pool w)
          /\ wa_items (workers (pool w2)) = []
          /\ waiting (pool w2) = waiting (pool w)) as (Hs2 & Hc2 & Hr2 & Hop2 & Hi2 & Hw2).
  { subst w2. unfold_go. simpl. rewrite Hs. simpl.
    destruct (DisablePurge (options (pool w1))); simpl; done. }
  clearbody w1 w2.
  split; [|split; [|split; [|split; [|split; [|split]]]]].
  - rewrite (Submit_closed others g t w1 Hs). reflexivity.
  - unfold Submit, Submit_locked, Submit_handoff, bind, IsClosed, get, blocked, modify, ret.
    simpl. rewrite Hs2. simpl.
    destruct (retrieveWorker g (others w2)) as [[wk| |] w3]; simpl; discriminate.
  - intros Hcap. unfold_go. simpl. rewrite Hs2. simpl. rewrite !Hq.
    rewrite (wa_detach_empty _ Hi2). simpl. rewrite ?Hq, Hc2, Hr2, Z.gtb_ltb.
    assert ((capacity (pool w) =? -1) || (running (pool w) <? capacity (pool w)) = true) as ->.
    { apply orb_true_iff. destruct Hcap as [E|E]; [left; by apply Z.eqb_eq|right; by apply Z.ltb_lt]. }
    simpl. destruct (workerCache (pool (others w2))); reflexivity.
  - intros Hn Hle Hnb. unfold_go. simpl. rewrite Hs2. simpl. rewrite !Hq.
    rewrite (wa_detach_empty _ Hi2). simpl. rewrite ?Hq, Hc2, Hr2, Z.gtb_ltb.
    assert ((capacity (pool w) =? -1) || (running (pool w) <? capacity (pool w)) = false) as ->.
    { apply orb_false_iff. split; [by apply Z.eqb_neq|by apply Z.ltb_ge]. }
    simpl. rewrite ?Hq, Hop2, Hnb. reflexivity.
  - intros Hn Hle Hnb. unfold_go. simpl. rewrite Hs2. simpl. rewrite !Hq.
    rewrite (wa_detach_empty _ Hi2). simpl. rewrite ?Hq, Hc2, Hr2, Z.gtb_ltb.
    assert ((capacity (pool w) =? -1) || (running (pool w) <? capacity (pool w)) = false) as ->.
    { apply orb_false_iff. split; [by apply Z.eqb_neq|by apply Z.ltb_ge]. }
    simpl. rewrite ?Hq, Hop2, Hnb. simpl. rewrite ?Hq, ?Hop2, ?Hw2.
    destruct (negb (MaxBlockingTasks (options (pool w)) =? 0)
              && (waiting (pool w) >=? MaxBlockingTasks (options (pool w)))); reflexivity.
  - unfold_go. simpl. rewrite Hs. reflexivity.
  - unfold_go. simpl. rewrite Ho. reflexivity.
Qed.

Lemma Release_Reboot_Submit_witness :
  match run_from 2 nonblocking [OpSubmit 1%nat (Func 7); OpSubmitLocked 1%nat; OpSpawn 1%nat; OpReceive 0%nat] with
  | Some w =>
      let w1 := snd (Release (fun w => w) w) in
      let w2 := snd (Reboot w1) in
      fst (Submit (fun w => w) 2 (Func 8) w1) = Returned (Some ErrPoolClosed)
      /\ fst (Submit (fun w => w) 2 (Func 8) w2) = Returned None
      /\ Release (fun w => w) w1 = (tt, w1)
      /\ Reboot w = (tt, w)
  | None => False
  end.
Proof.
  destruct (run_from _ _ _) as [w0|] eqn:E; vm_compute in E; [|discriminate].
  injection E as <-.
  match goal with |- context [Reboot ?w = (tt, _)] => set (w0 := w) end.
  destruct (Release_Reboot_Submit (fun w => w) 2 (Func 8) w0) as (H1 & _ & H3 & _ & _ & H5 & H6);
    [reflexivity|reflexivity|].
  split; [exact H1|]. split; [|split; [exact H5|exact H6]].
  apply H3. right. vm_compute. reflexivity.
Defined.

(** C6 as stated fails: a non-blocking pool of capacity 1 whose one worker
    is busy is closed and rebooted; the worker is still running, and
    [Submit] returns [ErrPoolOverload]. *)
Lemma Submit_after_Reboot_overloaded :
  match run_from 1 nonblocking [OpSubmit 1%nat (Func 7); OpSubmitLocked 1%nat; OpSpawn 1%nat; OpReceive 0%nat] with
  | Some w =>
      state (pool w) = OPENED
      /\ fst (Submit (fun w => w) 2 (Func 8)
                     (snd (Reboot (snd (Release (fun w => w) w))))) =
           Returned (Some ErrPoolOverload)
  | None => False
  end.
Proof. vm_compute. split; reflexivity. Qed.

(** ** The worker: the nil task *)

(** C8. On an open pool for which [retrieveWorker] finds a worker,
    [Submit(nil)] returns [nil] and leaves the nil on that worker's
    channel. A worker that receives nil calls no task: its goroutine ends,
    the running counter goes down by one, and the only other effect is the
    signal of the deferred function. *)
Theorem Submit_nil_stops_worker (others : World -> World) (g wk : nat) (w w1 : World) :
  state (pool w) <> CLOSED ->
  retrieveWorker g (others w) = (Worker wk, w1) ->
  fst (Submit others g Nil w) = Returned None
  /\ task (worker_at (heap (snd (Submit others g Nil w))) wk) =
       task (worker_at (heap w1) wk) ++ [Nil]
  /\ log (snd (Submit others g Nil w)) = log w1 ++ [EvSend wk Nil]
  /\ forall (w2 : World) (rest : list Task),
       goroutines w2 !! wk = Some Receiving ->
       task (worker_at (heap w2) wk) = Nil :: rest ->
       exists w3, step (OpReceive wk) w2 = Some w3
                  /\ goroutines w3 = delete wk (goroutines w2)
                  /\ running (pool w3) = int32 (running (pool w2) + int32 (-1))
                  /\ (in_int32 (running (pool w2) - 1) ->
                      running (pool w3) = running (pool w2) - 1)
                  /\ log w3 = log w2 ++ [EvSignal (head (cond (pool w2)))]
                  /\ task (worker_at (heap w3) wk) = rest.
Proof.
  intros Hc Hr.
  pose proof (Submit_open others g Nil w Hc) as H.
  rewrite Hr in H. simpl in H. destruct H as (H1 & H2 & _ & H3 & _).
  split; [exact H1|]. split; [exact H2|]. split; [exact H3|].
  intros w2 rest Hg Hh. simpl. rewrite Hg.
  unfold chan_recv. rewrite Hh. simpl.
  unfold_go. simpl.
  destruct (cond (pool w2)) eqn:Ec; simpl;
    (eexists; split; [reflexivity|]; simpl; rewrite ?Ec; simpl;
     repeat split; try reflexivity;
     [intros Hin; change (int32 (-1)) with (-1);
      replace (running (pool w2) + -1) with (running (pool w2) - 1) by lia;
      by apply int32_id
     |unfold worker_at; by rewrite lookup_insert_eq]).
Qed.

Lemma Submit_nil_stops_worker_witness :
  match run_from 2 no_options [] with
  | Some w =>
      fst (Submit (fun w => w) 1 Nil w) = Returned None
      /\ (fun w' => (running (pool w'), map_to_list (goroutines w'), log w'))
           (snd (Submit (fun w => w) 1 Nil w)) =
           (1, [(0%nat, Receiving)], [EvGoPurge 0; EvLock; EvUnlock; EvGo 0; EvSend 0 Nil])
      /\ exists w3, step (OpReceive 0) (snd (Submit (fun w => w) 1 Nil w)) = Some w3
                    /\ goroutines w3 = delete 0%nat (goroutines (snd (Submit (fun w => w) 1 Nil w)))
                    /\ running (pool w3) = 0
                    /\ log w3 = [EvGoPurge 0; EvLock; EvUnlock; EvGo 0; EvSend 0 Nil;
                                 EvSignal None]
  | None => False
  end.
Proof.
  destruct (run_from _ _ _) as [w0|] eqn:E; vm_compute in E; [|discriminate].
  injection E as <-.
  match goal with |- context [Submit _ 1 Nil ?w] => set (w0 := w) end.
  destruct (Submit_nil_stops_worker (fun w => w) 1 0 w0 (snd (retrieveWorker 1 w0)))
    as (H1 & _ & _ & H4); [vm_compute; discriminate|vm_compute; reflexivity|].
  split; [exact H1|]. split; [vm_compute; reflexivity|].
  destruct (H4 (snd (Submit (fun w => w) 1 Nil w0)) []) as (w3 & Hs & Hg & Hr & Hr' & Hl & _);
    [vm_compute; reflexivity|vm_compute; reflexivity|].
  exists w3. split; [exact Hs|]. split; [exact Hg|]. split.
  - rewrite Hr'; [vm_compute; reflexivity|vm_compute; split; discriminate].
  - rewrite Hl. vm_compute. reflexivity.
Defined.

(** ** Runs: what every step keeps *)

Lemma exec_invariant (P : World -> Prop) :
  (forall o w w', step o w = Some w' -> P w -> P w') ->
  forall ops w w', exec ops w = Some w' -> P w -> P w'.
Proof.
  intros Hstep ops. induction ops as [|o ops IH]; intros w w' He Hw; simpl in He.
  - by simplify_eq.
  - destruct (step o w) as [w1|] eqn:Hs; [|done]. eauto.
Qed.

Lemma step_heartbeat_kept o w w' :
  step o w = Some w' -> heartbeat_kept w -> heartbeat_kept w'.
Proof.
  unfold heartbeat_kept.
  destruct o; simpl; intros Hs Hk.
  all: unfold_go.
  all: repeat case_match; simplify_eq/=; use_send_nil; use_chan_recv;
    try done; try (intros; by auto).
  all: try (unfold CLOSED, OPENED in *; intros; lia).
  all: try naive_solver.
Qed.

Lemma NewPool_heartbeat_kept size opts w :
  NewPool size opts = Created w -> heartbeat_kept w.
Proof.
  unfold NewPool, heartbeat_kept. unfold_go.
  repeat case_match; simplify_eq/=; intros; simplify_eq/=; done.
Qed.

Lemma reachable_heartbeat_kept w : reachable w -> heartbeat_kept w.
Proof.
  intros (size & opts & ops & _ & Hr). unfold run_from in Hr.
  destruct (NewPool size opts) as [w0|e] eqn:Hn; simpl in Hr; [|done].
  eapply (exec_invariant heartbeat_kept); eauto using step_heartbeat_kept.
  by eapply NewPool_heartbeat_kept.
Qed.

(** C9. On an open pool, [ReleaseTimeout] with a timeout that is not
    positive returns [ErrTimeout], whatever the running count and
    [heartbeatDone] are and whatever the other goroutines do while it waits
    for the lock: the deadline is not after the clock reading that the
    loop compares it with, which is taken after the one the deadline is
    computed from, so the loop body, which alone looks at them, is not
    run. *)
Theorem ReleaseTimeout_nonpositive (others : World -> World) (timeout lapse : Z) (w : World) :
  reachable w ->
  state (pool w) = OPENED ->
  timeout <= 0 ->
  0 <= lapse ->
  fst (ReleaseTimeout others timeout lapse w) = Finished (Some ErrTimeout).
Proof.
  intros Hr Ho Ht Hl.
  pose proof (reachable_heartbeat_kept w Hr Ho) as Hk.
  unfold_go. simpl. rewrite Ho. simpl.
  destruct (stopHeartbeat (pool w)) as [ctx|]; [|done]. simpl. rewrite Ho. simpl.
  destruct (send_nil _ _) as [u w1]. simpl.
  destruct (Z.ltb_spec (now w1 + lapse) (now w1 + timeout)); [lia|reflexivity].
Qed.

Lemma ReleaseTimeout_nonpositive_witness :
  match run_from 3 (purge_disabled 0) [] with
  | Some w =>
      running (pool w) = 0
      /\ DisablePurge (options (pool w)) = true
      /\ fst (ReleaseTimeout (fun w => w) 0 1 w) = Finished (Some ErrTimeout)
      /\ fst (ReleaseTimeout (fun w => w) 1 1 w) = Finished (Some ErrTimeout)
      /\ fst (ReleaseTimeout (fun w => w) 2 1 w) = Finished None
  | None => False
  end.
Proof.
  destruct (run_from _ _ _) as [w0|] eqn:E; [|vm_compute in E; discriminate].
  assert (reachable w0) as Hr.
  { exists 3, (purge_disabled 0), []. split; [|exact E].
    unfold in_int, min_int, max_int. lia. }
  vm_compute in E. injection E as <-.
  split; [reflexivity|]. split; [reflexivity|]. split.
  - apply (ReleaseTimeout_nonpositive (fun w => w) 0 1 _ Hr); [reflexivity|lia|lia].
  - split; vm_compute; reflexivity.
Defined.

(** *** The free-object cache and the live goroutines *)

Lemma idle_spawn_new gs nx st :
  idle_cache [] gs nx -> idle_cache [] (<[nx:=st]> gs) (S nx).
Proof.
  intros (Hnd & Hc & Hf). split; [done|]. split.
  - intros wk Hwk. by apply elem_of_nil in Hwk.
  - intros wk Hwk. split; [|apply not_elem_of_nil].
    rewrite lookup_insert_ne by lia. apply Hf. lia.
Qed.

Lemma idle_spawn_cached wk l gs nx st :
  idle_cache (wk :: l) gs nx -> idle_cache l (<[wk:=st]> gs) nx.
Proof.
  intros (Hnd & Hc & Hf). apply NoDup_cons in Hnd as [Hwk Hnd].
  split; [done|]. split.
  - intros x Hx. rewrite lookup_insert_ne by (intros ->; done).
    apply Hc. by right.
  - intros x Hx. destruct (Hf x Hx) as [Hg Hn]. split.
    + rewrite lookup_insert_ne; [done|]. intros ->. apply Hn. by left.
    + intros Hin. apply Hn. by right.
Qed.

Lemma idle_exit wk c gs nx st :
  idle_cache c gs nx -> gs !! wk = Some st -> idle_cache (wk :: c) (delete wk gs) nx.
Proof.
  intros (Hnd & Hc & Hf) Hwk. split; [|split].
  - apply NoDup_cons. split; [|done]. intros Hin. apply Hc in Hin. congruence.
  - intros x Hx. destruct (decide (x = wk)) as [->|Hne].
    + apply lookup_delete_eq.
    + rewrite lookup_delete_ne by done. apply Hc.
      apply elem_of_cons in Hx as [?|?]; [done|done].
  - intros x Hx. destruct (Hf x Hx) as [Hg Hn]. split.
    + destruct (decide (x = wk)) as [->|Hne]; [apply lookup_delete_eq|].
      by rewrite lookup_delete_ne.
    + intros Hin. apply elem_of_cons in Hin as [->|Hin]; [congruence|done].
Qed.

Lemma idle_update wk c gs nx st st' :
  idle_cache c gs nx -> gs !! wk = Some st -> idle_cache c (<[wk:=st']> gs) nx.
Proof.
  intros (Hnd & Hc & Hf) Hwk. split; [done|]. split.
  - intros x Hx. rewrite lookup_insert_ne; [by apply Hc|].
    intros ->. apply Hc in Hx. congruence.
  - intros x Hx. destruct (Hf x Hx) as [Hg Hn]. split; [|done].
    rewrite lookup_insert_ne; [done|]. intros ->. congruence.
Qed.

Lemma idle_drop c gs nx : idle_cache c gs nx -> idle_cache [] gs nx.
Proof.
  intros (Hnd & Hc & Hf). split; [apply NoDup_nil_2|]. split.
  - intros wk Hwk. by apply elem_of_nil in Hwk.
  - intros wk Hwk. split; [by apply Hf|apply not_elem_of_nil].
Qed.

Lemma idle_head_free wk l gs nx : idle_cache (wk :: l) gs nx -> gs !! wk = None.
Proof. intros (_ & Hc & _). apply Hc. by left. Qed.

Lemma idle_next_free gs nx : idle_cache [] gs nx -> gs !! nx = None.
Proof. intros (_ & _ & Hf). by apply Hf. Qed.

Ltac rewrite_frames :=
  repeat match goal with
  | E : pool ?w1 = _ |- _ => rewrite E in *; clear E
  | E : goroutines ?w1 = _ |- _ => rewrite E in *; clear E
  | E : next_worker ?w1 = _ |- _ => rewrite E in *; clear E
  end; simpl in *.

Lemma step_cache_idle o w w' :
  step o w = Some w' -> cache_idle w -> cache_idle w'.
Proof.
  destruct o; simpl; intros Hs Hi.
  all: unfold_go.
  all: repeat case_match; simplify_eq/=; use_send_nil; use_chan_recv; try done.
  all: unfold cache_idle in *; simpl in *; rewrite_frames.
  all: match goal with
       | H : workerCache _ = _ |- _ => rewrite H in *
       | _ => idtac
       end.
  all: eauto using idle_spawn_new, idle_spawn_cached, idle_exit, idle_update, idle_drop.
Qed.

Lemma NewPool_cache_idle size opts w :
  NewPool size opts = Created w -> cache_idle w.
Proof.
  unfold NewPool, cache_idle. unfold_go.
  repeat case_match; simplify_eq/=; intros; simplify_eq/=.
  all: split; [apply NoDup_nil_2|]; split;
    [intros wk Hwk; by apply elem_of_nil in Hwk
    |intros wk _; split; [apply lookup_empty|apply not_elem_of_nil]].
Qed.

(** ** The pool: the running count and the capacity *)

Lemma retrieveWorker_no_room (g : nat) (w : World) :
  capacity (pool w) <> -1 -> capacity (pool w) <= running (pool w) ->
  goroutines (snd (retrieveWorker g w)) = goroutines w
  /\ running (pool (snd (retrieveWorker g w))) = running (pool w).
Proof.
  intros Hn Hle. unfold_go.
  repeat case_match; simplify_eq/=; to_prop; try done; lia.
Qed.

Lemma retrieveWorker_awake_no_room (g : nat) (w : World) :
  capacity (pool w) <> -1 -> capacity (pool w) <= running (pool w) ->
  running (pool w) <> 0 ->
  goroutines (snd (retrieveWorker_awake g w)) = goroutines w
  /\ running (pool (snd (retrieveWorker_awake g w))) = running (pool w).
Proof.
  intros Hn Hle Hz. unfold_go.
  repeat case_match; simplify_eq/=; to_prop; try done; lia.
Qed.

(** The test that [retrieveWorker] makes under the lock lets it go on to
    [spawnWorker()] only when the capacity is -1 or above the running
    count it reads there. *)
Lemma retrieveWorker_locked_room (g : nat) (w w1 : World) :
  retrieveWorker_locked g w = (ToSpawn, w1) ->
  (capacity (pool w) = -1 \/ running (pool w) < capacity (pool w))
  /\ running (pool w1) = running (pool w)
  /\ goroutines w1 = goroutines w.
Proof.
  unfold_go.
  repeat case_match; simplify_eq/=; intros; simplify_eq/=; to_prop; try done.
  split; [|done].
  match goal with H : _ \/ _ |- _ => destruct H as [H|H]; [left; lia|right; lia] end.
Qed.

(** C1 under concurrent load, without any call of [Tune]. On a pool made by
    [NewPool(1)], two goroutines call [Submit]. The first takes the lock,
    finds the running count 0 below the capacity 1 and unlocks; before it
    has called [spawnWorker()], whose [addRunning(1)] is not under the
    lock, the second takes the lock and finds the running count still 0.
    Both start a worker and both calls return [nil]: the running count is
    2, two worker goroutines are live, and the capacity is 1. The count
    comes back to the capacity only when one of the workers has run its
    task and [revertWorker] refuses it. *)
Theorem running_exceeds_capacity :
  match run_from 1 no_options
                 [OpSubmit 1%nat (Func 7); OpSubmitLocked 1%nat;
                  OpSubmit 2%nat (Func 8); OpSubmitLocked 2%nat;
                  OpSpawn 1%nat; OpSpawn 2%nat] with
  | Some w =>
      capacity (pool w) = 1
      /\ running (pool w) = 2
      /\ goroutines w = <[1%nat := Receiving]> (<[0%nat := Receiving]> ∅)
      /\ chan (heap w) 0 = [Func 7] /\ chan (heap w) 1 = [Func 8]
      /\ callers w = ∅
      /\ List.filter (fun e => match e with EvReturn _ _ => true | _ => false end) (log w) =
           [EvReturn 1 None; EvReturn 2 None]
      /\ match exec [OpReceive 0%nat; OpReturned 0%nat] w with
         | Some w' =>
             running (pool w') = 1 /\ goroutines w' = <[1%nat := Receiving]> ∅
             /\ wa_items (workers (pool w')) = []
         | None => False
         end
  | None => False
  end.
Proof. vm_compute. repeat split; reflexivity. Qed.

(** ** Further properties *)

(** *** The running counter counts the worker goroutines *)

Lemma int32_add_l a b : int32 (int32 a + b) = int32 (a + b).
Proof.
  unfold int32, wrap. change (2 ^ (32 - 1)) with 2147483648.
  change (2 ^ 32) with 4294967296.
  replace ((a + 2147483648) mod 4294967296 - 2147483648 + b + 2147483648)
    with ((a + 2147483648) mod 4294967296 + b) by lia.
  rewrite Zplus_mod_idemp_l. f_equal. f_equal. lia.
Qed.

Lemma tally_spawn run gs wk st :
  tally run gs -> gs !! wk = None ->
  tally (int32 (run + int32 1)) (<[wk:=st]> gs).
Proof.
  unfold tally. intros -> Hwk. rewrite map_size_insert_None by done.
  change (int32 1) with 1. rewrite int32_add_l. f_equal. lia.
Qed.

Lemma tally_exit run gs wk st :
  tally run gs -> gs !! wk = Some st ->
  tally (int32 (run + int32 (-1))) (delete wk gs).
Proof.
  unfold tally. intros -> Hwk.
  pose proof (map_size_delete_Some wk gs (mk_is_Some _ _ Hwk)) as Hsz.
  assert (size gs <> 0%nat) as Hne.
  { intros E. apply map_size_empty_inv in E. subst. by rewrite lookup_empty in Hwk. }
  change (int32 (-1)) with (-1). rewrite int32_add_l. f_equal. lia.
Qed.

Lemma tally_update run gs wk st st' :
  tally run gs -> gs !! wk = Some st -> tally run (<[wk:=st']> gs).
Proof.
  unfold tally. intros -> Hwk. rewrite map_size_insert_Some by (by eexists). done.
Qed.

Lemma step_counted o w w' :
  step o w = Some w' -> cache_idle w -> counted w -> counted w'.
Proof.
  destruct o; simpl; intros Hs Hi Hb.
  all: unfold_go.
  all: repeat case_match; simplify_eq/=; use_send_nil; use_chan_recv; try done.
  all: unfold cache_idle, counted in *; simpl in *; rewrite_frames.
  all: match goal with
       | H : workerCache _ = _ |- _ => rewrite H in *
       | _ => idtac
       end.
  all: eauto using tally_exit, tally_update.
  all: eapply tally_spawn; eauto using idle_head_free, idle_next_free.
Qed.

Lemma exec_counted ops w w' :
  exec ops w = Some w' -> cache_idle w -> counted w -> cache_idle w' /\ counted w'.
Proof.
  revert w. induction ops as [|o ops IH]; intros w He Hi Hb; simpl in He.
  - by simplify_eq.
  - destruct (step o w) as [w1|] eqn:Hs; [|done].
    apply (IH w1 He); eauto using step_cache_idle, step_counted.
Qed.

Lemma NewPool_counted size opts w : NewPool size opts = Created w -> counted w.
Proof.
  unfold NewPool, counted, tally. unfold_go.
  repeat case_match; simplify_eq/=; intros; simplify_eq/=; reflexivity.
Qed.

(** X1. In every world that a schedule leads to from a new pool, the
    running counter is the number of live worker goroutines (as an [int32]
    holds it, and exactly that number while there are fewer than 2^31):
    [run] adds one where it launches a goroutine and the deferred function
    takes one off where a goroutine ends, on every path. *)
Theorem running_counts_goroutines (w : World) :
  reachable w ->
  running (pool w) = int32 (Z.of_nat (size (goroutines w)))
  /\ (Z.of_nat (size (goroutines w)) <= max_int32 ->
      running (pool w) = Z.of_nat (size (goroutines w))).
Proof.
  intros (size & opts & ops & _ & Hr). unfold run_from in Hr.
  destruct (NewPool size opts) as [w0|e] eqn:Hn; simpl in Hr; [|done].
  destruct (exec_counted ops w0 w Hr) as [_ Hc];
    [by eapply NewPool_cache_idle|by eapply NewPool_counted|].
  split; [exact Hc|]. intros Hle. rewrite Hc. apply int32_id.
  unfold in_int32, min_int32, max_int32 in *. lia.
Qed.

Lemma running_counts_goroutines_witness :
  match run_from 0 no_options
                 [OpSubmit 1%nat (Func 7); OpSubmitLocked 1%nat; OpSpawn 1%nat;
                  OpSubmit 2%nat (Func 8); OpSubmitLocked 2%nat; OpSpawn 2%nat;
                  OpReceive 0%nat; OpPanicked 0%nat 3%nat] with
  | Some w => size (goroutines w) = 1%nat /\ running (pool w) = 1
  | None => False
  end.
Proof.
  destruct (run_from _ _ _) as [w|] eqn:E; [|vm_compute in E; discriminate].
  assert (reachable w) as Hr.
  { eexists _, _, _. split; [|exact E]. unfold in_int, min_int, max_int. lia. }
  destruct (running_counts_goroutines w Hr) as [_ H].
  assert (size (goroutines w) = 1%nat) as Hs
      by (vm_compute in E; injection E as <-; reflexivity).
  split; [exact Hs|]. rewrite H; rewrite Hs; [reflexivity|vm_compute; discriminate].
Defined.

(** *** The lock is released on every path *)

Lemma lock_trace_app h l l' :
  lock_trace h (l ++ l') =
    match lock_trace h l with
    | Some h' => lock_trace h' l'
    | None => None
    end.
Proof.
  revert h. induction l as [|e l IH]; intros h; simpl; [reflexivity|].
  destruct e; try apply IH; destruct h; try reflexivity; apply IH.
Qed.

Lemma send_nil_log ws w :
  log (snd (send_nil ws w)) = log w ++ map (fun wk => EvSend wk Nil) ws.
Proof.
  revert w. induction ws as [|wk ws IH]; intros w; simpl.
  - by rewrite app_nil_r.
  - unfold bind. simpl. rewrite IH. simpl. by rewrite <- app_assoc.
Qed.

Lemma lock_trace_sends h (ws : list nat) :
  lock_trace h (map (fun wk => EvSend wk Nil) ws) = Some h.
Proof. induction ws as [|wk ws IH]; simpl; [reflexivity|exact IH]. Qed.

Lemma send_nil_lock_trace h ws w :
  lock_trace h (log (snd (send_nil ws w))) = lock_trace h (log w).
Proof.
  rewrite send_nil_log, lock_trace_app.
  destruct (lock_trace h (log w)); [apply lock_trace_sends|reflexivity].
Qed.

Ltac use_send_nil_log :=
  repeat match goal with
  | H : send_nil ?ws ?w = (_, ?w1) |- _ =>
      let L := fresh "L" in
      assert (forall h, lock_trace h (log w1) = lock_trace h (log w)) as L
        by (intros h; pose proof (send_nil_lock_trace h ws w) as L; by rewrite H in L);
      let E := fresh "E" in
      pose proof (send_nil_pool ws w) as E; rewrite H in E; simpl in E;
      clear H
  end.

Ltac use_chan_recv_log :=
  repeat match goal with
  | H : chan_recv ?wk ?w = Some (_, ?w1) |- _ =>
      let E := fresh "E" in
      let L := fresh "L" in
      destruct (chan_recv_frame _ _ _ _ H) as (E & _ & _ & L); clear H;
      rewrite ?E, ?L in *
  end.

Lemma step_lock_free o w w' :
  step o w = Some w' -> lock_free w -> lock_free w'.
Proof.
  unfold lock_free.
  destruct o; simpl; intros Hs [Hl Ht].
  all: unfold_go.
  all: repeat case_match; simplify_eq/=; use_send_nil_log; use_chan_recv_log; try done.
  all: repeat match goal with E : pool _ = _ |- _ => rewrite E; clear E end.
  all: unfold SpinLock.Unlock; simpl.
  all: repeat (first [ rewrite lock_trace_app
                     | rewrite Ht
                     | match goal with
                       | L : forall h, lock_trace h _ = _ |- _ => rewrite L
                       end ]; simpl).
  all: done.
Qed.

Lemma NewPool_lock_free size opts w : NewPool size opts = Created w -> lock_free w.
Proof.
  unfold NewPool, lock_free. unfold_go.
  repeat case_match; simplify_eq/=; intros; simplify_eq/=; done.
Qed.

(** X2. In every world that a schedule leads to from a new pool, that is
    whenever every goroutine is at a blocking operation (or between the
    unlock of [retrieveWorker] and its [spawnWorker()]), the pool lock is
    free; and along the log the lock is never taken while held nor released
    while free: every path of [retrieveWorker], [revertWorker], [Release]
    and [purgePeriodically] unlocks what it locked, a wait in [cond.Wait]
    included. *)
Theorem lock_released (w : World) :
  reachable w ->
  lock (pool w) = 0 /\ lock_trace false (log w) = Some false.
Proof.
  intros (size & opts & ops & _ & Hr). unfold run_from in Hr.
  destruct (NewPool size opts) as [w0|e] eqn:Hn; simpl in Hr; [|done].
  eapply (exec_invariant lock_free); eauto using step_lock_free.
  by eapply NewPool_lock_free.
Qed.

Lemma lock_released_witness :
  match run_from 1 no_options
                 [OpSubmit 1%nat (Func 7); OpSubmitLocked 1%nat; OpSpawn 1%nat;
                  OpSubmit 2%nat (Func 8); OpSubmitLocked 2%nat;
                  OpReceive 0%nat; OpReturned 0%nat; OpReverted 0%nat;
                  OpAwake 2%nat; OpRelease; OpReleaseLocked] with
  | Some w => lock (pool w) = 0 /\ lock_trace false (log w) = Some false
  | None => False
  end.
Proof.
  destruct (run_from _ _ _) as [w|] eqn:E; [|vm_compute in E; discriminate].
  apply lock_released. eexists _, _, _. split; [|exact E].
  unfold in_int, min_int, max_int. lia.
Defined.

(** *** The waiting counter counts the parked callers *)

Lemma waiters_enter cs g t :
  cs !! g = None -> waiters (<[g:=AtLock t]> cs) = waiters cs.
Proof.
  intros Hg. unfold waiters.
  rewrite map_filter_insert_False by (simpl; done).
  rewrite map_filter_delete, delete_id; [done|].
  apply map_lookup_filter_None. left. done.
Qed.

Lemma waiters_done cs g t :
  cs !! g = Some (AtLock t) -> waiters (delete g cs) = waiters cs.
Proof.
  intros Hg. unfold waiters.
  rewrite map_filter_delete, delete_id; [done|].
  apply map_lookup_filter_None. right. intros x Hx. simplify_eq. simpl. done.
Qed.

Lemma waiters_park cs g t t' :
  cs !! g = Some (AtLock t) -> waiters (<[g:=InWait t']> cs) = S (waiters cs).
Proof.
  intros Hg. unfold waiters.
  rewrite map_filter_insert_True by (simpl; done).
  apply map_size_insert_None.
  apply map_lookup_filter_None. right. intros x Hx. simplify_eq. simpl. done.
Qed.

Lemma waiters_leave cs g t :
  cs !! g = Some (InWait t) ->
  waiters cs = S (waiters (delete g cs)).
Proof.
  intros Hg. unfold waiters.
  rewrite map_filter_delete.
  assert (filter (fun kv : nat * cstate => in_wait kv.2 = true) cs !! g = Some (InWait t)) as Hf
      by (apply map_lookup_filter_Some; done).
  rewrite (map_size_delete_Some g _ (mk_is_Some _ _ Hf)).
  assert (size (filter (fun kv : nat * cstate => in_wait kv.2 = true) cs) <> 0%nat).
  { intros E. apply map_size_empty_inv in E. rewrite E in Hf. by rewrite lookup_empty in Hf. }
  lia.
Qed.

Lemma waiters_repark cs g t t' :
  cs !! g = Some (InWait t) -> waiters (<[g:=InWait t']> cs) = waiters cs.
Proof.
  intros Hg. unfold waiters.
  rewrite map_filter_insert_True by (simpl; done).
  apply map_size_insert_Some. exists (InWait t).
  apply map_lookup_filter_Some. done.
Qed.

Lemma waiters_spawning cs g t t' :
  cs !! g = Some (AtLock t) -> waiters (<[g:=Spawning t']> cs) = waiters cs.
Proof.
  intros Hg. unfold waiters.
  rewrite map_filter_insert_False by (simpl; done).
  rewrite map_filter_delete, delete_id; [done|].
  apply map_lookup_filter_None. right. intros x Hx. simplify_eq. simpl. done.
Qed.

Lemma waiters_spawned cs g t :
  cs !! g = Some (Spawning t) -> waiters (delete g cs) = waiters cs.
Proof.
  intros Hg. unfold waiters.
  rewrite map_filter_delete, delete_id; [done|].
  apply map_lookup_filter_None. right. intros x Hx. simplify_eq. simpl. done.
Qed.

Lemma waiters_wake cs g t t' :
  cs !! g = Some (InWait t) ->
  waiters cs = S (waiters (<[g:=Spawning t']> cs)).
Proof.
  intros Hg. rewrite (waiters_leave cs g t Hg). f_equal. unfold waiters.
  rewrite map_filter_insert_False by (simpl; done).
  by rewrite map_filter_delete.
Qed.

Lemma wtally_enter wt cs g t :
  wtally wt cs -> cs !! g = None -> wtally wt (<[g:=AtLock t]> cs).
Proof. unfold wtally. intros -> Hg. by rewrite waiters_enter. Qed.

Lemma wtally_done wt cs g t :
  wtally wt cs -> cs !! g = Some (AtLock t) -> wtally wt (delete g cs).
Proof. unfold wtally. intros -> Hg. by rewrite (waiters_done _ _ t). Qed.

Lemma wtally_park wt cs g t t' :
  wtally wt cs -> cs !! g = Some (AtLock t) ->
  wtally (int32 (wt + int32 1)) (<[g:=InWait t']> cs).
Proof.
  unfold wtally. intros -> Hg. rewrite (waiters_park _ _ t) by done.
  change (int32 1) with 1. rewrite int32_add_l. f_equal. lia.
Qed.

Lemma wtally_leave wt cs g t :
  wtally wt cs -> cs !! g = Some (InWait t) ->
  wtally (int32 (wt + int32 (-1))) (delete g cs).
Proof.
  unfold wtally. intros -> Hg. rewrite (waiters_leave cs g t Hg).
  change (int32 (-1)) with (-1). rewrite int32_add_l. f_equal. lia.
Qed.

Lemma wtally_repark wt cs g t t' :
  wtally wt cs -> cs !! g = Some (InWait t) ->
  wtally (int32 (int32 (wt + int32 (-1)) + int32 1)) (<[g:=InWait t']> cs).
Proof.
  unfold wtally. intros -> Hg. rewrite (waiters_repark _ _ t) by done.
  change (int32 (-1)) with (-1). change (int32 1) with 1.
  rewrite int32_add_l.
  replace (int32 (Z.of_nat (waiters cs)) + -1 + 1)
    with (int32 (Z.of_nat (waiters cs)) + 0) by lia.
  rewrite int32_add_l. f_equal. lia.
Qed.

Lemma wtally_spawning wt cs g t t' :
  wtally wt cs -> cs !! g = Some (AtLock t) -> wtally wt (<[g:=Spawning t']> cs).
Proof. unfold wtally. intros -> Hg. by rewrite (waiters_spawning _ _ t). Qed.

Lemma wtally_spawned wt cs g t :
  wtally wt cs -> cs !! g = Some (Spawning t) -> wtally wt (delete g cs).
Proof. unfold wtally. intros -> Hg. by rewrite (waiters_spawned _ _ t). Qed.

Lemma wtally_wake wt cs g t t' :
  wtally wt cs -> cs !! g = Some (InWait t) ->
  wtally (int32 (wt + int32 (-1))) (<[g:=Spawning t']> cs).
Proof.
  unfold wtally. intros -> Hg. rewrite (waiters_wake cs g t t' Hg).
  change (int32 (-1)) with (-1). rewrite int32_add_l. f_equal. lia.
Qed.

Lemma send_nil_callers ws w : callers (snd (send_nil ws w)) = callers w.
Proof.
  revert w. induction ws as [|wk ws IH]; intros w; [reflexivity|].
  simpl. unfold bind. simpl. rewrite IH. reflexivity.
Qed.

Lemma chan_recv_callers wk w f w1 :
  chan_recv wk w = Some (f, w1) -> pool w1 = pool w /\ callers w1 = callers w.
Proof.
  unfold chan_recv. intros H. repeat case_match; simplify_eq/=. done.
Qed.

Ltac use_frames_callers :=
  repeat match goal with
  | H : send_nil ?ws ?w = (_, ?w1) |- _ =>
      let E := fresh "E" in
      pose proof (send_nil_pool ws w) as E; rewrite H in E; simpl in E;
      let E2 := fresh "E" in
      pose proof (send_nil_callers ws w) as E2; rewrite H in E2; simpl in E2;
      clear H; rewrite ?E, ?E2 in *; simpl in *
  | H : chan_recv ?wk ?w = Some (_, ?w1) |- _ =>
      let E := fresh "E" in
      let E2 := fresh "E" in
      destruct (chan_recv_callers _ _ _ _ H) as (E & E2); clear H;
      rewrite ?E, ?E2 in *
  end.

Lemma step_waiting_counted o w w' :
  step o w = Some w' -> waiting_counted w -> waiting_counted w'.
Proof.
  destruct o; simpl; intros Hs Hb.
  all: unfold_go.
  all: repeat case_match; simplify_eq/=; use_frames_callers; try done.
  all: unfold waiting_counted in *; simpl in *.
  all: repeat match goal with
       | E : pool _ = _ |- _ => rewrite E in *; clear E
       | E : callers _ = _ |- _ => rewrite E in *; clear E
       end; simpl in *.
  all: eauto using wtally_enter, wtally_done, wtally_park, wtally_leave, wtally_repark,
         wtally_spawning, wtally_spawned, wtally_wake.
Qed.

Lemma wcap_enter m wt cs g t :
  wcap m wt cs -> cs !! g = None -> wcap m wt (<[g:=AtLock t]> cs).
Proof. unfold wcap. intros [-> Hm] Hg. by rewrite waiters_enter. Qed.

Lemma wcap_done m wt cs g t :
  wcap m wt cs -> cs !! g = Some (AtLock t) -> wcap m wt (delete g cs).
Proof. unfold wcap. intros [-> Hm] Hg. by rewrite (waiters_done _ _ t). Qed.

Lemma wcap_park m wt cs g t t' :
  wcap m wt cs -> wt < m -> m <= max_int32 -> cs !! g = Some (AtLock t) ->
  wcap m (int32 (wt + int32 1)) (<[g:=InWait t']> cs).
Proof.
  unfold wcap. intros [-> Hm] Hlt Hmax Hg. rewrite (waiters_park _ _ t) by done.
  change (int32 1) with 1.
  rewrite int32_id; unfold in_int32, min_int32, max_int32 in *; lia.
Qed.

Lemma wcap_leave m wt cs g t :
  wcap m wt cs -> m <= max_int32 -> cs !! g = Some (InWait t) ->
  wcap m (int32 (wt + int32 (-1))) (delete g cs).
Proof.
  unfold wcap. intros [-> Hm] Hmax Hg. rewrite (waiters_leave cs g t Hg) in *.
  change (int32 (-1)) with (-1).
  rewrite int32_id; unfold in_int32, min_int32, max_int32 in *; lia.
Qed.

Lemma wcap_repark m wt cs g t t' :
  wcap m wt cs -> m <= max_int32 -> cs !! g = Some (InWait t) ->
  int32 (wt + int32 (-1)) < m ->
  wcap m (int32 (int32 (wt + int32 (-1)) + int32 1)) (<[g:=InWait t']> cs).
Proof.
  unfold wcap. intros [-> Hm] Hmax Hg. rewrite (waiters_repark _ _ t) by done.
  pose proof (waiters_leave cs g t Hg) as Hs.
  change (int32 (-1)) with (-1). change (int32 1) with 1.
  rewrite (int32_id (Z.of_nat (waiters cs) + -1))
    by (unfold in_int32, min_int32, max_int32 in *; lia).
  intros Hlt.
  rewrite int32_id; unfold in_int32, min_int32, max_int32 in *; lia.
Qed.

Lemma wcap_spawning m wt cs g t t' :
  wcap m wt cs -> cs !! g = Some (AtLock t) -> wcap m wt (<[g:=Spawning t']> cs).
Proof. unfold wcap. intros [-> Hm] Hg. by rewrite (waiters_spawning _ _ t). Qed.

Lemma wcap_spawned m wt cs g t :
  wcap m wt cs -> cs !! g = Some (Spawning t) -> wcap m wt (delete g cs).
Proof. unfold wcap. intros [-> Hm] Hg. by rewrite (waiters_spawned _ _ t). Qed.

Lemma wcap_wake m wt cs g t t' :
  wcap m wt cs -> m <= max_int32 -> cs !! g = Some (InWait t) ->
  wcap m (int32 (wt + int32 (-1))) (<[g:=Spawning t']> cs).
Proof.
  unfold wcap. intros [-> Hm] Hmax Hg. rewrite (waiters_wake cs g t t' Hg) in *.
  change (int32 (-1)) with (-1).
  rewrite int32_id; unfold in_int32, min_int32, max_int32 in *; lia.
Qed.

Lemma step_waiting_capped m o w w' :
  0 < m <= max_int32 ->
  step o w = Some w' -> waiting_capped m w -> waiting_capped m w'.
Proof.
  intros Hm. destruct o; simpl; intros Hs [Ho Hb].
  all: unfold_go.
  all: repeat case_match; simplify_eq/=; use_frames_callers; try done.
  all: unfold waiting_capped in *; simpl in *.
  all: repeat match goal with
       | E : pool _ = _ |- _ => rewrite E in *; clear E
       | E : callers _ = _ |- _ => rewrite E in *; clear E
       end; simpl in *.
  all: (split; [done|]).
  all: to_prop.
  all: repeat match goal with
       | H : _ = false \/ _ = false |- _ => destruct H as [H|H]; to_prop
       end.
  all: try lia.
  all: eauto using wcap_enter, wcap_done, wcap_leave, wcap_spawning, wcap_spawned.
  all: try (eapply wcap_wake; eauto; lia).
  all: try (eapply wcap_park; eauto; lia).
  all: try (eapply wcap_repark; eauto; lia).
  all: eapply wcap_leave; eauto; lia.
Qed.

Lemma NewPool_waiting size opts w :
  NewPool size opts = Created w ->
  waiting_counted w
  /\ (0 <= MaxBlockingTasks opts -> waiting_capped (MaxBlockingTasks opts) w).
Proof.
  unfold NewPool, waiting_counted, waiting_capped, wtally, wcap, waiters. unfold_go.
  destruct opts as [ex pa mb nb ph lg dp].
  repeat case_match; simplify_eq/=; intros; simplify_eq/=;
    rewrite map_filter_empty, map_size_empty; done.
Qed.

(** X3. In every world that a schedule leads to from a new pool, the
    waiting counter is the number of callers of [Submit] that are between
    the [addWaiting(1)] and the [addWaiting(-1)] of [retrieveWorker] (as an
    [int32] holds it). When the pool was made with a positive
    [MaxBlockingTasks] that [int32] holds, that number never exceeds it,
    and the counter is exactly that number, so never negative. *)
Theorem waiting_counts_waiters (size : Z) (opts : Options) (ops : list op) (w : World) :
  run_from size opts ops = Some w ->
  waiting (pool w) = int32 (Z.of_nat (waiters (callers w)))
  /\ (0 < MaxBlockingTasks opts <= max_int32 ->
      waiting (pool w) = Z.of_nat (waiters (callers w))
      /\ 0 <= waiting (pool w) <= MaxBlockingTasks opts).
Proof.
  unfold run_from. intros Hr.
  destruct (NewPool size opts) as [w0|e] eqn:Hn; simpl in Hr; [|done].
  destruct (NewPool_waiting size opts w0 Hn) as [Hc Hcap].
  split.
  - eapply (exec_invariant waiting_counted); eauto using step_waiting_counted.
  - intros Hm.
    assert (waiting_capped (MaxBlockingTasks opts) w) as (_ & Hw & Hle).
    { eapply (exec_invariant (waiting_capped (MaxBlockingTasks opts))); eauto.
      - intros o w1 w2. by apply step_waiting_capped.
      - apply Hcap. lia. }
    split; [exact Hw|]. lia.
Qed.

Lemma waiting_counts_waiters_witness :
  match run_from 1 (mkOptions 0 false 1 false None None false)
                 [OpSubmit 1%nat (Func 7); OpSubmitLocked 1%nat; OpSpawn 1%nat;
                  OpSubmit 2%nat (Func 8); OpSubmitLocked 2%nat;
                  OpSubmit 3%nat (Func 9); OpSubmitLocked 3%nat] with
  | Some w => waiting (pool w) = 1 /\ waiters (callers w) = 1%nat
              /\ last (log w) = Some (EvReturn 3 (Some ErrPoolOverload))
  | None => False
  end.
Proof.
  destruct (run_from _ _ _) as [w|] eqn:E; [|vm_compute in E; discriminate].
  destruct (waiting_counts_waiters _ _ _ _ E) as [_ H].
  destruct H as [H _]; [simpl; unfold max_int32; lia|].
  assert (waiters (callers w) = 1%nat /\ last (log w) = Some (EvReturn 3 (Some ErrPoolOverload)))
    as [Hw Hl] by (vm_compute in E; injection E as <-; split; vm_compute; reflexivity).
  split; [rewrite H, Hw; reflexivity|]. split; [exact Hw|exact Hl].
Defined.


(** *** Unlimited and non-blocking pools *)

Lemma step_capacity_unlimited o w w' :
  step o w = Some w' -> capacity (pool w) = -1 -> capacity (pool w') = -1.
Proof.
  destruct o; simpl; intros Hs Hc.
  all: unfold_go.
  all: repeat case_match; simplify_eq/=; use_send_nil; use_chan_recv; try done.
  all: rewrite_frames; try done.
  all: to_prop; repeat match goal with H : _ \/ _ |- _ => destruct H end; to_prop; lia.
Qed.

Lemma retrieveWorker_unlimited g w :
  capacity (pool w) = -1 -> exists wk, fst (retrieveWorker g w) = Worker wk.
Proof.
  intros Hc. unfold_go.
  repeat case_match; simplify_eq/=; eauto; to_prop; lia.
Qed.

(** X4. A pool made with a size that is not positive has capacity -1 in
    every world a schedule leads to ([Tune] does not change it), and on
    such a pool, while it is open, [Submit] never returns
    [ErrPoolOverload] and never waits: it returns [nil]. *)
Theorem Submit_unlimited (size : Z) (opts : Options) (ops : list op) (w : World) :
  size <= 0 ->
  run_from size opts ops = Some w ->
  capacity (pool w) = -1
  /\ forall (others : World -> World) (g : nat) (t : Task),
       state (pool w) <> CLOSED ->
       capacity (pool (others w)) = -1 ->
       fst (Submit others g t w) = Returned None.
Proof.
  intros Hs Hr. unfold run_from in Hr.
  destruct (NewPool size opts) as [w0|e] eqn:Hn; simpl in Hr; [|done].
  split.
  - eapply (exec_invariant (fun w => capacity (pool w) = -1));
      eauto using step_capacity_unlimited.
    revert Hn. unfold NewPool. unfold_go.
    repeat case_match; simplify_eq/=; intros; simplify_eq/=; to_prop; try lia; reflexivity.
  - intros others g t Hc Hcap.
    pose proof (Submit_open others g t w Hc) as H.
    destruct (retrieveWorker_unlimited g (others w) Hcap) as [wk Hwk].
    destruct (retrieveWorker g (others w)) as [a w1]. simpl in Hwk. subst a.
    simpl in H. tauto.
Qed.

Lemma Submit_unlimited_witness :
  match run_from 0 no_options
                 [OpSubmit 1%nat (Func 7); OpSubmitLocked 1%nat; OpSpawn 1%nat; OpTune 5] with
  | Some w =>
      capacity (pool w) = -1
      /\ fst (Submit (fun w => w) 2 (Func 8) w) = Returned None
  | None => False
  end.
Proof.
  destruct (run_from _ _ _) as [w|] eqn:E; [|vm_compute in E; discriminate].
  destruct (Submit_unlimited 0 _ _ w ltac:(lia) E) as [Hc H].
  split; [exact Hc|]. apply H; [|exact Hc].
  vm_compute in E. injection E as <-. vm_compute. discriminate.
Defined.

Lemma retrieveWorker_nonblocking g w :
  Nonblocking (options (pool w)) = true ->
  (exists wk, fst (retrieveWorker g w) = Worker wk)
  \/ (saturated w
      /\ retrieveWorker g w =
           (NoWorker,
            emit EvUnlock (emit EvLock (upd_pool (set_lock 0) w)))).
Proof.
  intros Hn. unfold saturated. unfold_go. simpl.
  destruct (wa_detach (workers (pool w))) as [[wk|] q] eqn:Hd; simpl; [eauto|].
  destruct ((capacity (pool w) =? -1) || (capacity (pool w) >? running (pool w))) eqn:Hc;
    simpl.
  - left. repeat case_match; simplify_eq/=; eauto.
  - right. rewrite Hn. to_prop. split; [split; [done|lia]|].
    assert (q = workers (pool w)) as ->.
    { revert Hd. unfold wa_detach. repeat case_match; intros; simplify_eq/=; done. }
    unfold emit, upd_pool, set_workers, set_lock. simpl.
    destruct w as [p h nw gs cs ss r nc cn nowt lg]. destruct p. simpl. reflexivity.
Qed.

(** X5. On a non-blocking pool [Submit] never leaves its caller waiting.
    On an open one it returns [ErrPoolOverload] exactly when there is no
    idle worker to detach and the running count has reached a capacity
    other than -1, and then it changes nothing but to take and release the
    lock; otherwise it returns [nil]. *)
Theorem Submit_nonblocking (others : World -> World) (g : nat) (t : Task) (w : World) :
  Nonblocking (options (pool (others w))) = true ->
  fst (Submit others g t w) <> Blocked
  /\ (state (pool w) <> CLOSED ->
      (saturated (others w) ->
       Submit others g t w =
         (Returned (Some ErrPoolOverload),
          emit EvUnlock (emit EvLock (upd_pool (set_lock 0) (others w)))))
      /\ (~ saturated (others w) -> fst (Submit others g t w) = Returned None)).
Proof.
  intros Hn. split.
  - destruct (decide (state (pool w) = CLOSED)) as [Hc|Hc].
    + by rewrite (Submit_closed others g t w Hc).
    + pose proof (Submit_open others g t w Hc) as H.
      destruct (retrieveWorker_nonblocking g (others w) Hn) as [[wk Hw]|[_ Hw]].
      * destruct (retrieveWorker g (others w)) as [a w1]. simpl in Hw. subst a.
        simpl in H. destruct H as [-> _]. discriminate.
      * rewrite Hw in H. simpl in H. rewrite H. simpl. discriminate.
  - intros Hc.
    pose proof (Submit_open others g t w Hc) as H.
    destruct (retrieveWorker_nonblocking g (others w) Hn) as [[wk Hw]|[Hs Hw]].
    + assert (~ saturated (others w)) as Hns.
      { intros (Hd & Hcap & Hle). revert Hw. unfold_go. simpl.
        destruct (wa_detach (workers (pool (others w)))) as [[x|] q]; [done|]. simpl.
        assert ((capacity (pool (others w)) =? -1)
                || (capacity (pool (others w)) >? running (pool (others w))) = false) as ->.
        { apply orb_false_iff. split; [by apply Z.eqb_neq|]. rewrite Z.gtb_ltb.
          by apply Z.ltb_ge. }
        simpl. rewrite Hn. simpl. discriminate. }
      split; [done|]. intros _.
      destruct (retrieveWorker g (others w)) as [a w1]. simpl in Hw. subst a.
      simpl in H. tauto.
    + split; [|done]. intros _. rewrite Hw in H. simpl in H. exact H.
Qed.

Lemma Submit_nonblocking_witness :
  match run_from 1 nonblocking [OpSubmit 1%nat (Func 7); OpSubmitLocked 1%nat; OpSpawn 1%nat] with
  | Some w =>
      fst (Submit (fun w => w) 2 (Func 8) w) <> Blocked
      /\ Submit (fun w => w) 2 (Func 8) w =
           (Returned (Some ErrPoolOverload),
            emit EvUnlock (emit EvLock (upd_pool (set_lock 0) w)))
  | None => False
  end.
Proof.
  destruct (run_from _ _ _) as [w|] eqn:E; [|vm_compute in E; discriminate].
  vm_compute in E. injection E as <-.
  match goal with |- context [Submit _ 2 (Func 8) ?w] => set (w0 := w) end.
  destruct (Submit_nonblocking (fun w => w) 2 (Func 8) w0) as [H1 H2];
    [vm_compute; reflexivity|].
  split; [exact H1|].
  apply H2; [vm_compute; discriminate|].
  vm_compute. split; [reflexivity|]. split; discriminate.
Defined.

(** *** The worker's goroutine *)

(** X6. A step of a worker's goroutine either keeps the goroutine (the
    running counter and the free-object cache are as before, and the idle
    queue is as before unless the step is a successful [revertWorker],
    which inserts this worker), or ends it; and when it ends it, on any of
    the paths (a nil received, a panic, a refused [revertWorker]), the
    deferred function has run once: the running counter is one less, the
    struct is in the cache, the last effect is a [Signal], and the worker
    has not been put in the idle queue. *)
Theorem worker_leaves_once (wk : nat) (o : op) (w w' : World) :
  worker_op wk o ->
  step o w = Some w' ->
  (exists st, goroutines w' = <[wk:=st]> (goroutines w)
              /\ running (pool w') = running (pool w)
              /\ workerCache (pool w') = workerCache (pool w)
              /\ (workers (pool w') = workers (pool w)
                  \/ (o = OpReverted wk
                      /\ wa_insert wk (workers (pool w)) = Some (workers (pool w')))))
  \/ (goroutines w' = delete wk (goroutines w)
      /\ running (pool w') = int32 (running (pool w) + int32 (-1))
      /\ workerCache (pool w') = wk :: workerCache (pool w)
      /\ workers (pool w') = workers (pool w)
      /\ exists g, last (log w') = Some (EvSignal g)).
Proof.
  destruct o; simpl; try done; intros -> Hs.
  all: unfold_go.
  all: repeat case_match; simplify_eq/=; use_chan_recv; try done.
  all: rewrite ?last_snoc.
  all: try (right; repeat split; eauto; fail).
  all: try (left; eexists; repeat split; eauto; fail).
Qed.

Lemma worker_leaves_once_witness :
  match run_from 1 no_options
                 [OpSubmit 1%nat (Func 7); OpSubmitLocked 1%nat; OpSpawn 1%nat; OpReceive 0%nat;
                  OpRelease; OpReleaseLocked] with
  | Some w =>
      match step (OpReturned 0) w with
      | Some w' =>
          goroutines w' = delete 0%nat (goroutines w)
          /\ running (pool w') = 0
          /\ workerCache (pool w') = [0%nat]
          /\ wa_items (workers (pool w')) = []
      | None => False
      end
  | None => False
  end.
Proof.
  destruct (run_from _ _ _) as [w|] eqn:E; [|vm_compute in E; discriminate].
  destruct (step (OpReturned 0) w) as [w'|] eqn:Es;
    [|vm_compute in E; injection E as <-; vm_compute in Es; discriminate].
  destruct (worker_leaves_once 0 (OpReturned 0) w w' eq_refl Es)
    as [(st & Hg & _)|(Hg & Hr & Hc & Hq & _)].
  - exfalso.
    assert (goroutines w' !! 0%nat = None) as Hn.
    { vm_compute in E. injection E as <-. vm_compute in Es. injection Es as <-.
      vm_compute. reflexivity. }
    rewrite Hg in Hn. by rewrite lookup_insert_eq in Hn.
  - split; [exact Hg|]. rewrite Hr, Hc, Hq.
    vm_compute in E. injection E as <-. vm_compute. auto.
Defined.

(** X7. A panic in a task stays in the worker: the value goes to the
    [PanicHandler] if there is one, to the logger if not; the worker is not
    put back in the idle queue, its goroutine ends, the running counter is
    one less, the struct is in the cache and one waiter, if any, is
    signalled; the pool's state and capacity are as before. *)
Theorem panic_contained (wk f v : nat) (w : World) :
  goroutines w !! wk = Some (Executing f) ->
  exists w', step (OpPanicked wk v) w = Some w'
    /\ log w' = log w
                ++ [match PanicHandler (options (pool w)) with
                    | Some ph => EvPanicHandler ph v
                    | None => EvLogPanic (Logger (options (pool w))) v
                    end;
                    EvSignal (head (cond (pool w)))]
    /\ cond (pool w') = tail (cond (pool w))
    /\ goroutines w' = delete wk (goroutines w)
    /\ running (pool w') = int32 (running (pool w) + int32 (-1))
    /\ workerCache (pool w') = wk :: workerCache (pool w)
    /\ workers (pool w') = workers (pool w)
    /\ state (pool w') = state (pool w)
    /\ capacity (pool w') = capacity (pool w)
    /\ heap w' = heap w.
Proof.
  intros Hg. simpl. rewrite Hg. unfold_go. simpl.
  destruct (PanicHandler (options (pool w))); destruct (cond (pool w)) eqn:Ec; simpl;
    eexists; (split; [reflexivity|]); simpl; rewrite ?Ec; simpl;
    rewrite <- ?app_assoc; simpl; done.
Qed.

Lemma panic_contained_witness :
  match run_from 1 (mkOptions 0 false 0 false (Some 4%nat) None false)
                 [OpSubmit 1%nat (Func 7); OpSubmitLocked 1%nat; OpSpawn 1%nat; OpReceive 0%nat;
                  OpSubmit 2%nat (Func 8); OpSubmitLocked 2%nat] with
  | Some w =>
      exists w', step (OpPanicked 0 9) w = Some w'
                 /\ log w' = log w ++ [EvPanicHandler 4 9; EvSignal (Some 2%nat)]
                 /\ running (pool w') = 0
  | None => False
  end.
Proof.
  destruct (run_from _ _ _) as [w|] eqn:E; [|vm_compute in E; discriminate].
  destruct (panic_contained 0 7 9 w) as (w' & Hs & Hl & _ & _ & Hr & _).
  { vm_compute in E. injection E as <-. vm_compute. reflexivity. }
  exists w'. split; [exact Hs|]. rewrite Hl, Hr.
  vm_compute in E. injection E as <-. split; vm_compute; reflexivity.
Defined.

(** X8. A task handed to a worker that waits on its empty channel is the
    next thing that worker does: after [Submit(f)] returns [nil], the
    worker's receive takes [f] and calls it, leaving the channel empty
    and the running counter as it was. *)
Theorem Submit_runs_task (others : World -> World) (g wk f : nat) (w w1 : World) :
  state (pool w) <> CLOSED ->
  retrieveWorker g (others w) = (Worker wk, w1) ->
  goroutines w1 !! wk = Some Receiving ->
  task (worker_at (heap w1) wk) = [] ->
  fst (Submit others g (Func f) w) = Returned None
  /\ exists w', step (OpReceive wk) (snd (Submit others g (Func f) w)) = Some w'
                /\ goroutines w' = <[wk:=Executing f]> (goroutines w1)
                /\ log w' = log w1 ++ [EvSend wk (Func f); EvCall wk f]
                /\ task (worker_at (heap w') wk) = []
                /\ pool w' = pool w1.
Proof.
  intros Hc Hr Hg Ht.
  pose proof (Submit_open others g (Func f) w Hc) as H.
  rewrite Hr in H. simpl in H. destruct H as (H1 & H2 & _ & H3 & H4 & H5).
  split; [exact H1|].
  destruct (Submit others g (Func f) w) as [r w2]. simpl in *.
  rewrite H5, Hg. unfold chan_recv. rewrite H2, Ht. simpl.
  unfold_go. simpl. eexists. split; [reflexivity|]. simpl.
  rewrite H3, H4, H5, <- app_assoc. simpl. repeat split; try done.
  unfold worker_at. by rewrite lookup_insert_eq.
Qed.

Lemma Submit_runs_task_witness :
  match run_from 2 no_options [] with
  | Some w =>
      fst (Submit (fun w => w) 1 (Func 7) w) = Returned None
      /\ exists w', step (OpReceive 0) (snd (Submit (fun w => w) 1 (Func 7) w)) = Some w'
                    /\ last (log w') = Some (EvCall 0 7)
  | None => False
  end.
Proof.
  destruct (run_from _ _ _) as [w|] eqn:E; [|vm_compute in E; discriminate].
  vm_compute in E. injection E as <-.
  match goal with |- context [Submit _ 1 (Func 7) ?w] => set (w0 := w) end.
  destruct (Submit_runs_task (fun w => w) 1 0 7 w0 (snd (retrieveWorker 1 w0)))
    as (H1 & w' & Hs & _ & Hl & _);
    [vm_compute; discriminate|vm_compute; reflexivity|vm_compute; reflexivity
    |vm_compute; reflexivity|].
  split; [exact H1|]. exists w'. split; [exact Hs|]. rewrite Hl.
  vm_compute. reflexivity.
Defined.

(** *** Closing, and the scavenger *)

Lemma send_nil_cond_frame ws w :
  cancelled (snd (send_nil ws w)) = cancelled w
  /\ next_ctx (snd (send_nil ws w)) = next_ctx w
  /\ scavengers (snd (send_nil ws w)) = scavengers w.
Proof.
  revert w. induction ws as [|wk ws IH]; intros w; [done|].
  simpl. unfold bind. simpl.
  destruct (IH (emit (EvSend wk Nil)
                     (upd_heap (fun h => <[wk:=push_task Nil (worker_at h wk)]> h) w)))
    as (E1 & E2 & E3).
  rewrite E1, E2, E3. done.
Qed.

Lemma chan_recv_ctx wk w f w1 :
  chan_recv wk w = Some (f, w1) ->
  pool w1 = pool w /\ cancelled w1 = cancelled w /\ next_ctx w1 = next_ctx w.
Proof.
  unfold chan_recv. intros H. repeat case_match; simplify_eq/=. done.
Qed.

Ltac use_frames_ctx :=
  repeat match goal with
  | H : send_nil ?ws ?w = (_, ?w1) |- _ =>
      let E := fresh "E" in
      pose proof (send_nil_pool ws w) as E; rewrite H in E; simpl in E;
      let E2 := fresh "E" in
      let E3 := fresh "E" in
      let E4 := fresh "E" in
      destruct (send_nil_cond_frame ws w) as (E2 & E3 & E4);
      rewrite H in E2, E3, E4; simpl in E2, E3, E4;
      clear H; rewrite ?E, ?E2, ?E3, ?E4 in *; simpl in *
  | H : chan_recv ?wk ?w = Some (_, ?w1) |- _ =>
      let E := fresh "E" in
      let E2 := fresh "E" in
      let E3 := fresh "E" in
      destruct (chan_recv_ctx _ _ _ _ H) as (E & E2 & E3); clear H;
      rewrite ?E, ?E2, ?E3 in *
  end.

Lemma step_ctx_fresh o w w' :
  step o w = Some w' -> ctx_fresh w -> ctx_fresh w'.
Proof.
  unfold ctx_fresh.
  destruct o; simpl; intros Hs [Hf Hc].
  all: unfold_go.
  all: repeat case_match; simplify_eq/=; use_frames_ctx; try done.
  all: repeat match goal with
       | E : pool _ = _ |- _ => rewrite E in *; clear E
       | E : cancelled _ = _ |- _ => rewrite E in *; clear E
       | E : next_ctx _ = _ |- _ => rewrite E in *; clear E
       end; simpl in *.
  all: try done.
  all: split; [intros c Hcs; simplify_eq/=|intros c Hcs].
  all: try (by apply Hf).
  all: try (destruct (Hf _ ltac:(eassumption)) as [? ?]).
  all: try (destruct (Hf _ eq_refl) as [? ?]).
  all: try (split; [lia|]).
  all: try (intros Hin; apply Hc in Hin; lia).
  all: try (apply elem_of_cons in Hcs as [->|Hcs]; [lia|by apply Hc]).
  all: try (apply Hc in Hcs; lia).
Qed.

Lemma step_orphan c o w w' :
  step o w = Some w' -> orphan c w -> orphan c w'.
Proof.
  unfold orphan.
  destruct o; simpl; intros Hs (Hn & Hs' & Hlt).
  all: unfold_go.
  all: repeat case_match; simplify_eq/=; use_frames_ctx; try done.
  all: repeat match goal with
       | E : pool _ = _ |- _ => rewrite E in *; clear E
       | E : cancelled _ = _ |- _ => rewrite E in *; clear E
       | E : next_ctx _ = _ |- _ => rewrite E in *; clear E
       end; simpl in *.
  all: try done.
  all: repeat split; try done; try lia.
  all: try (intros Hin; apply elem_of_cons in Hin as [->|Hin]; done).
  all: try (intros Heq; simplify_eq; lia).
Qed.


Lemma NewPool_ctx_fresh size opts w : NewPool size opts = Created w -> ctx_fresh w.
Proof.
  unfold NewPool, ctx_fresh. unfold_go.
  repeat case_match; simplify_eq/=; intros; simplify_eq/=.
  all: split; [intros c Hc; simplify_eq; split; [lia|apply not_elem_of_nil]
              |intros c Hc; by apply elem_of_nil in Hc].
Qed.

Lemma reachable_ctx_fresh w : reachable w -> ctx_fresh w.
Proof.
  intros (size & opts & ops & _ & Hr). unfold run_from in Hr.
  destruct (NewPool size opts) as [w0|e] eqn:Hn; simpl in Hr; [|done].
  eapply (exec_invariant ctx_fresh); eauto using step_ctx_fresh.
  by eapply NewPool_ctx_fresh.
Qed.

(** X9. [Release] does not stop the scavenger: it never calls the cancel
    function. If an open pool whose scavenger runs under context [c] is
    closed by [Release] and reopened by [Reboot] before that scavenger's
    next tick, [Reboot] replaces the cancel function by that of a new
    context and starts a second scavenger beside the first; from then on
    no schedule cancels [c], so the first scavenger never takes its
    [ctx.Done()] branch. *)
Theorem scavenger_orphaned (c : nat) (st : sstate) (w w2 : World) :
  reachable w ->
  state (pool w) = OPENED ->
  stopHeartbeat (pool w) = Some c ->
  scavengers w !! c = Some st ->
  exec [OpRelease; OpReleaseLocked; OpReboot] w = Some w2 ->
  state (pool w2) = OPENED
  /\ stopHeartbeat (pool w2) = Some (next_ctx w)
  /\ next_ctx w <> c
  /\ scavengers w2 !! c = Some st
  /\ (DisablePurge (options (pool w)) = false ->
      scavengers w2 !! next_ctx w = Some Selecting)
  /\ forall ops w3, exec ops w2 = Some w3 ->
                    (c ∉ cancelled w3) /\ step (OpDone c) w3 = None.
Proof.
  intros Hr Ho Hs Hsc He.
  destruct (reachable_ctx_fresh w Hr) as [Hf _].
  destruct (Hf c Hs) as [Hlt Hnc].
  assert (state (pool w2) = OPENED
          /\ stopHeartbeat (pool w2) = Some (next_ctx w)
          /\ scavengers w2 =
               (if DisablePurge (options (pool w)) then scavengers w
                else <[next_ctx w := Selecting]> (scavengers w))
          /\ cancelled w2 = cancelled w
          /\ next_ctx w2 = S (next_ctx w)) as (H1 & H2 & H3 & H4 & H5).
  { revert He. simpl. unfold_go. simpl. rewrite Ho. simpl.
    destruct (send_nil _ _) as [u w1] eqn:E.
    pose proof (send_nil_cond_frame
                  (wa_items (workers (pool w)))
                  (emit EvLock (upd_pool (set_lock 1)
                                         (set_releasing (S (releasing w))
                                                        (upd_pool (set_state CLOSED) w)))))
      as (E1 & E2 & E3).
    pose proof (send_nil_pool
                  (wa_items (workers (pool w)))
                  (emit EvLock (upd_pool (set_lock 1)
                                         (set_releasing (S (releasing w))
                                                        (upd_pool (set_state CLOSED) w)))))
      as E0.
    rewrite E in E0, E1, E2, E3. simpl in E0, E1, E2, E3.
    simpl. rewrite E0. simpl. rewrite ?E0, ?E1, ?E2, ?E3. simpl.
    destruct (DisablePurge (options (pool w))); simpl; intros; simplify_eq/=;
      rewrite ?E0, ?E1, ?E2, ?E3; simpl; done. }
  split; [exact H1|]. split; [exact H2|]. split; [lia|]. split.
  { rewrite H3. destruct (DisablePurge (options (pool w))); [done|].
    rewrite lookup_insert_ne by lia. done. }
  split.
  { intros Hd. rewrite H3, Hd. apply lookup_insert_eq. }
  intros ops w3 He3.
  assert (orphan c w3) as (Hn3 & _ & _).
  { eapply (exec_invariant (orphan c)); eauto using step_orphan.
    split; [by rewrite H4|]. split; [rewrite H2; intros Heq; simplify_eq; lia|].
    rewrite H5. lia. }
  split; [exact Hn3|]. simpl.
  destruct (scavengers w3 !! c) as [[|]|]; try reflexivity.
  rewrite bool_decide_eq_false_2; done.
Qed.

Lemma scavenger_orphaned_witness :
  match run_from 1 no_options [] with
  | Some w =>
      match exec [OpRelease; OpReleaseLocked; OpReboot] w with
      | Some w2 =>
          stopHeartbeat (pool w2) = Some 1%nat
          /\ scavengers w2 !! 0%nat = Some Selecting
          /\ scavengers w2 !! 1%nat = Some Selecting
          /\ step (OpDone 0) w2 = None
          /\ match exec [OpReleaseTimeout; OpReleaseLocked; OpDone 1%nat] w2 with
             | Some w3 => step (OpDone 0) w3 = None
             | None => False
             end
      | None => False
      end
  | None => False
  end.
Proof.
  destruct (run_from _ _ _) as [w|] eqn:E; [|vm_compute in E; discriminate].
  assert (reachable w) as Hr.
  { eexists _, _, _. split; [|exact E]. unfold in_int, min_int, max_int. lia. }
  destruct (exec [OpRelease; OpReleaseLocked; OpReboot] w) as [w2|] eqn:E2;
    [|vm_compute in E; injection E as <-; vm_compute in E2; discriminate].
  destruct (scavenger_orphaned 0 Selecting w w2 Hr) as (_ & H2 & _ & H4 & H5 & H6);
    [vm_compute in E; injection E as <-; vm_compute; reflexivity
    |vm_compute in E; injection E as <-; vm_compute; reflexivity
    |vm_compute in E; injection E as <-; vm_compute; reflexivity
    |exact E2|].
  assert (next_ctx w = 1%nat /\ DisablePurge (options (pool w)) = false) as [Hn Hd]
      by (vm_compute in E; injection E as <-; split; reflexivity).
  rewrite Hn in *.
  split; [exact H2|]. split; [exact H4|]. split; [by apply H5|].
  split; [apply (H6 [] w2 eq_refl)|].
  destruct (exec [OpReleaseTimeout; OpReleaseLocked; OpDone 1%nat] w2) as [w3|] eqn:E3.
  - apply (H6 _ w3 E3).
  - vm_compute in E. injection E as <-. vm_compute in E2. injection E2 as <-.
    vm_compute in E3. discriminate.
Defined.

Lemma Release_locked_wakes (w : World) :
  cond (pool (snd (Release_locked w))) = []
  /\ state (pool (snd (Release_locked w))) = state (pool w)
  /\ last (log (snd (Release_locked w))) = Some (EvBroadcast (cond (pool w))).
Proof.
  unfold_go. simpl.
  destruct (send_nil _ _) as [u w1] eqn:E.
  pose proof (send_nil_pool (wa_items (workers (pool w)))
                            (emit EvLock (upd_pool (set_lock 1) w))) as Hp.
  rewrite E in Hp. simpl in Hp. simpl. rewrite Hp. simpl.
  split; [done|]. split; [done|]. by rewrite last_snoc.
Qed.

(** X10. [Release] wakes every caller parked in [Submit]: the wait list is
    empty after its broadcast, which is its last effect. A caller that
    comes out of [cond.Wait] and finds the pool closed gets
    [ErrPoolOverload] (not [ErrPoolClosed]); it starts no worker, and
    takes itself off the waiting counter. *)
Theorem Release_wakes_waiters (w : World) :
  (cond (pool (snd (Release_locked w))) = []
   /\ last (log (snd (Release_locked w))) = Some (EvBroadcast (cond (pool w))))
  /\ forall (g : nat) (t : Task) (w2 : World),
       state (pool w2) = CLOSED ->
       fst (Submit_awake g t w2) = Returned (Some ErrPoolOverload)
       /\ goroutines (snd (Submit_awake g t w2)) = goroutines w2
       /\ running (pool (snd (Submit_awake g t w2))) = running (pool w2)
       /\ waiting (pool (snd (Submit_awake g t w2))) = int32 (waiting (pool w2) + int32 (-1))
       /\ workers (pool (snd (Submit_awake g t w2))) = workers (pool w2)
       /\ heap (snd (Submit_awake g t w2)) = heap w2
       /\ log (snd (Submit_awake g t w2)) = log w2 ++ [EvLock; EvUnlock].
Proof.
  split.
  - destruct (Release_locked_wakes w) as (H1 & _ & H3). done.
  - intros g t w2 Hc. unfold_go. simpl. rewrite Hc. simpl.
    rewrite <- app_assoc. done.
Qed.

Lemma Release_wakes_waiters_witness :
  match run_from 1 no_options
                 [OpSubmit 1%nat (Func 7); OpSubmitLocked 1%nat; OpSpawn 1%nat;
                  OpSubmit 2%nat (Func 8); OpSubmitLocked 2%nat;
                  OpRelease; OpReleaseLocked] with
  | Some w =>
      cond (pool w) = [] /\ callers w !! 2%nat = Some (InWait (Func 8))
      /\ fst (Submit_awake 2 (Func 8) w) = Returned (Some ErrPoolOverload)
      /\ waiting (pool (snd (Submit_awake 2 (Func 8) w))) = 0
  | None => False
  end.
Proof.
  destruct (run_from _ _ _) as [w|] eqn:E; [|vm_compute in E; discriminate].
  destruct (proj2 (Release_wakes_waiters w) 2%nat (Func 8) w) as (H1 & _ & _ & H4 & _).
  { vm_compute in E. injection E as <-. reflexivity. }
  rewrite H1, H4. vm_compute in E. injection E as <-.
  repeat split; vm_compute; reflexivity.
Defined.

(** X11. [ReleaseTimeout] on an open pool that holds a cancel function,
    the other goroutines leaving the pool alone meanwhile: whatever it
    returns, it is not [ErrPoolClosed]; it has cancelled the scavenger's
    context before anything else, and it leaves the pool closed and the
    cancel function nil, so that a second call returns [ErrPoolClosed] at
    once and changes nothing. *)
Theorem ReleaseTimeout_closes (others : World -> World) (timeout timeout' lapse lapse' : Z)
        (c : nat) (w : World) :
  (forall w, pool (others w) = pool w) ->
  state (pool w) = OPENED ->
  stopHeartbeat (pool w) = Some c ->
  let w' := snd (ReleaseTimeout others timeout lapse w) in
  fst (ReleaseTimeout others timeout lapse w) <> Finished (Some ErrPoolClosed)
  /\ cancelled (snd (ReleaseTimeout_enter w)) = c :: cancelled w
  /\ state (pool w') = CLOSED
  /\ stopHeartbeat (pool w') = None
  /\ ReleaseTimeout others timeout' lapse' w' = (Finished (Some ErrPoolClosed), w').
Proof.
  intros Hq Ho Hs w'. subst w'.
  assert (ReleaseTimeout_enter w =
            (Some true,
             upd_pool (set_state CLOSED)
                      (upd_pool (set_stopHeartbeat None)
                                (emit (EvCancel c) (set_cancelled (c :: cancelled w) w)))))
    as He.
  { unfold_go. simpl. rewrite Ho, Hs. simpl. rewrite Ho. reflexivity. }
  split; [|split; [by rewrite He|]].
  - unfold ReleaseTimeout, bind. rewrite He. simpl.
    unfold ReleaseTimeout_wait, ReleaseTimeout_poll, elapse, bind, get, modify, time_Now, Running, ret.
    destruct (Release_locked _) as [u w1]. simpl.
    repeat case_match; simpl; discriminate.
  - assert (state (pool (snd (ReleaseTimeout others timeout lapse w))) = CLOSED
            /\ stopHeartbeat (pool (snd (ReleaseTimeout others timeout lapse w))) = None)
      as [H1 H2].
    { unfold ReleaseTimeout, bind. rewrite He. simpl.
      unfold blocked, modify, bind.
      match goal with |- context [Release_locked ?x] =>
        pose proof (Release_locked_wakes x) as (_ & Hst & _);
        assert (stopHeartbeat (pool (snd (Release_locked x))) = stopHeartbeat (pool x)) as Hsh
      end.
      { unfold_go. simpl. destruct (send_nil _ _) as [u w1] eqn:E.
        match type of E with send_nil ?ws ?x = _ =>
          pose proof (send_nil_pool ws x) as Hp end.
        rewrite E in Hp. simpl in Hp. simpl. rewrite Hp. reflexivity. }
      destruct (Release_locked _) as [u w1]. simpl in *.
      rewrite Hq in Hst, Hsh. simpl in Hst, Hsh.
      unfold ReleaseTimeout_wait, ReleaseTimeout_poll, elapse, bind, get, modify, time_Now, Running, ret.
      simpl. repeat case_match; simpl; done. }
    split; [exact H1|]. split; [exact H2|].
    remember (snd (ReleaseTimeout others timeout lapse w)) as w' eqn:Hw'. clear Hw'.
    unfold_go. simpl. rewrite H2. reflexivity.
Qed.

Lemma ReleaseTimeout_closes_witness :
  match run_from 1 no_options [OpSubmit 1%nat (Func 7); OpSubmitLocked 1%nat; OpSpawn 1%nat] with
  | Some w =>
      fst (ReleaseTimeout (fun w => w) 50 1 w) = Sleeping 50
      /\ state (pool (snd (ReleaseTimeout (fun w => w) 50 1 w))) = CLOSED
      /\ fst (ReleaseTimeout (fun w => w) 50 1 (snd (ReleaseTimeout (fun w => w) 50 1 w))) =
           Finished (Some ErrPoolClosed)
  | None => False
  end.
Proof.
  destruct (run_from _ _ _) as [w|] eqn:E; [|vm_compute in E; discriminate].
  destruct (ReleaseTimeout_closes (fun w => w) 50 50 1 1 0 w) as (_ & _ & H3 & _ & H5);
    [reflexivity
    |vm_compute in E; injection E as <-; reflexivity
    |vm_compute in E; injection E as <-; reflexivity|].
  rewrite H5. split; [|split; [exact H3|reflexivity]].
  vm_compute in E. injection E as <-. vm_compute. reflexivity.
Defined.



(** *** The capacity and the free count *)

Lemma step_capacity_sound o w w' :
  tune_fits o -> step o w = Some w' -> capacity_sound w -> capacity_sound w'.
Proof.
  unfold capacity_sound.
  destruct o; simpl; intros Hfit Hs Hc.
  all: unfold_go.
  all: repeat case_match; simplify_eq/=; use_send_nil; use_chan_recv; try done.
  all: rewrite_frames; try done.
  all: to_prop; right; rewrite int32_id; unfold in_int32, min_int32, max_int32 in *; lia.
Qed.

Lemma step_prealloc_fixed size o w w' :
  step o w = Some w' -> prealloc_fixed size w -> prealloc_fixed size w'.
Proof.
  unfold prealloc_fixed.
  destruct o; simpl; intros Hs [Hp Hc].
  all: unfold_go.
  all: repeat case_match; simplify_eq/=; use_send_nil; use_chan_recv; try done.
  all: rewrite_frames; try done.
  all: to_prop; repeat match goal with H : _ \/ _ |- _ => destruct H end; congruence.
Qed.

Lemma exec_capacity_sound ops w w' :
  tune_sizes_fit ops -> exec ops w = Some w' -> capacity_sound w -> capacity_sound w'.
Proof.
  intros Hf. revert w. induction Hf as [|o ops Ho Hf IH]; intros w He Hc; simpl in He.
  - by simplify_eq.
  - destruct (step o w) as [w1|] eqn:Hs; [|done].
    apply (IH w1 He). eapply step_capacity_sound; eauto.
Qed.

(** X13. From a pool made with a size that [int32] holds, along any
    schedule whose calls of [Tune] ask for such sizes, the capacity is -1
    or positive (never 0, never another negative value), and every call of
    [Tune] on a pre-allocated pool leaves its capacity at the size it was
    made with. *)
Theorem capacity_kept (size : Z) (opts : Options) (ops : list op) (w : World) :
  size <= max_int32 ->
  tune_sizes_fit ops ->
  run_from size opts ops = Some w ->
  (capacity (pool w) = -1 \/ 1 <= capacity (pool w) <= max_int32)
  /\ (PreAlloc opts = true -> capacity (pool w) = size).
Proof.
  intros Hs Hf Hr. unfold run_from in Hr.
  destruct (NewPool size opts) as [w0|e] eqn:Hn; simpl in Hr; [|done].
  split.
  - eapply exec_capacity_sound; eauto. by eapply NewPool_capacity_positive.
  - intros Hp.
    assert (prealloc_fixed size w) as [_ Hc]; [|exact Hc].
    eapply (exec_invariant (prealloc_fixed size)); eauto.
    + intros o w1 w2. apply step_prealloc_fixed.
    + revert Hn. unfold NewPool, prealloc_fixed. unfold_go.
      destruct opts as [ex pa mb nb ph lg dp]. simpl in Hp. subst pa.
      repeat case_match; simplify_eq/=; intros; simplify_eq/=; to_prop;
        (split; [reflexivity|]);
        rewrite int32_id; unfold in_int32, min_int32, max_int32 in *; lia.
Qed.

Lemma capacity_kept_witness :
  match run_from 4 (mkOptions 0 true 0 false None None false)
                 [OpTune 9; OpSubmit 1%nat (Func 7); OpSubmitLocked 1%nat; OpSpawn 1%nat; OpTune 2] with
  | Some w => capacity (pool w) = 4
  | None => False
  end.
Proof.
  destruct (run_from _ _ _) as [w|] eqn:E; [|vm_compute in E; discriminate].
  assert (tune_sizes_fit [OpTune 9; OpSubmit 1%nat (Func 7); OpSubmitLocked 1%nat; OpSpawn 1%nat; OpTune 2])
    as Hf by (repeat constructor; vm_compute; discriminate).
  exact (proj2 (capacity_kept 4 _ _ w ltac:(vm_compute; discriminate) Hf E) eq_refl).
Defined.

(** X14. [Free] changes nothing. It returns -1 exactly when the capacity
    is negative or the running count is one above the capacity. From a
    pool made with a size that [int32] holds, along any schedule whose
    calls of [Tune] ask for such sizes, and while fewer than 2^31 workers
    are live: [Free] is -1 on an unlimited pool, and on a limited one it
    is the capacity less the number of live workers, so at most the
    capacity, and negative as soon as more workers are live than the
    capacity allows. *)
Theorem Free_counts_room (n : Z) (opts : Options) (ops : list op) (w : World) :
  n <= max_int32 ->
  tune_sizes_fit ops ->
  run_from n opts ops = Some w ->
  Z.of_nat (size (goroutines w)) <= max_int32 ->
  snd (Free w) = w
  /\ (forall w1, fst (Free w1) = -1 <->
                 capacity (pool w1) < 0 \/ running (pool w1) = capacity (pool w1) + 1)
  /\ (capacity (pool w) = -1 -> fst (Free w) = -1)
  /\ (capacity (pool w) <> -1 ->
      fst (Free w) = capacity (pool w) - Z.of_nat (size (goroutines w))
      /\ fst (Free w) <= capacity (pool w)
      /\ (fst (Free w) < 0 <-> capacity (pool w) < Z.of_nat (size (goroutines w)))).
Proof.
  intros Hs Hf Hr Hg. unfold run_from in Hr.
  destruct (NewPool n opts) as [w0|e] eqn:Hn; simpl in Hr; [|done].
  assert (capacity_sound w) as Hc.
  { apply (exec_capacity_sound ops w0 w Hf Hr). by apply (NewPool_capacity_positive n opts). }
  assert (running (pool w) = Z.of_nat (size (goroutines w))) as Hrun.
  { destruct (exec_counted ops w0 w Hr) as [_ Hcnt];
      [by eapply NewPool_cache_idle|by eapply NewPool_counted|].
    unfold counted, tally in Hcnt. rewrite Hcnt. apply int32_id.
    unfold in_int32, min_int32, max_int32 in *. lia. }
  split; [|split; [|split]].
  - unfold_go. simpl. by destruct (capacity (pool w) <? 0).
  - intros w1. unfold_go. simpl.
    destruct (Z.ltb_spec (capacity (pool w1)) 0); simpl; split; intros; lia.
  - intros E. unfold_go. simpl. rewrite E. reflexivity.
  - intros Hne. unfold_go. simpl. destruct Hc as [Hc|Hc]; [done|].
    destruct (Z.ltb_spec (capacity (pool w)) 0); simpl; lia.
Qed.

Lemma Free_counts_room_witness :
  match run_from 1 no_options
                 [OpSubmit 1%nat (Func 7); OpSubmitLocked 1%nat;
                  OpSubmit 2%nat (Func 8); OpSubmitLocked 2%nat;
                  OpSpawn 1%nat; OpSpawn 2%nat] with
  | Some w => capacity (pool w) = 1 /\ fst (Free w) = -1 /\ snd (Free w) = w
  | None => False
  end.
Proof.
  destruct (run_from _ _ _) as [w|] eqn:E; [|vm_compute in E; discriminate].
  assert (capacity (pool w) = 1 /\ Z.of_nat (size (goroutines w)) = 2) as [Hc Hg]
      by (vm_compute in E; injection E as <-; split; vm_compute; reflexivity).
  assert (1 <= max_int32) as Hn by (vm_compute; discriminate).
  assert (tune_sizes_fit [OpSubmit 1%nat (Func 7); OpSubmitLocked 1%nat;
                          OpSubmit 2%nat (Func 8); OpSubmitLocked 2%nat;
                          OpSpawn 1%nat; OpSpawn 2%nat]) as Hf by (repeat constructor).
  assert (Z.of_nat (size (goroutines w)) <= max_int32) as Hm
      by (rewrite Hg; vm_compute; discriminate).
  destruct (Free_counts_room 1 no_options _ w Hn Hf E Hm) as (H1 & _ & _ & H4).
  split; [exact Hc|]. split; [|exact H1].
  destruct H4 as [H4 _]; [rewrite Hc; discriminate|].
  rewrite H4, Hc, Hg. reflexivity.
Defined.

(** *** The spin lock: how much it yields *)

Section SpinLockYields.
Import SpinLock.

Lemma gosched_count_app tr tr' :
  gosched_count (tr ++ tr') = (gosched_count tr + gosched_count tr')%nat.
Proof.
  induction tr as [|e tr IH]; simpl; [reflexivity|].
  destruct e; simpl; lia.
Qed.

Lemma gosched_count_repeat n : gosched_count (repeat Gosched n) = n.
Proof. induction n as [|n IH]; simpl; [reflexivity|]. by rewrite IH. Qed.

Lemma failed_rounds_S n :
  failed_rounds 0 (S n) =
    failed_rounds 0 n ++ CasFailed :: repeat Gosched (Z.to_nat (backoff_at n)).
Proof.
  unfold failed_rounds. rewrite seq_S, flat_map_app. simpl.
  by rewrite app_nil_r.
Qed.

Lemma failed_rounds_yields n :
  Z.of_nat (gosched_count (failed_rounds 0 n)) =
    if Z.of_nat n <? 5 then 2 ^ Z.of_nat n - 1 else 16 * Z.of_nat n - 49.
Proof.
  induction n as [|n IH]; [reflexivity|].
  rewrite failed_rounds_S, gosched_count_app. simpl.
  rewrite gosched_count_repeat, Nat2Z.inj_add, IH.
  pose proof (backoff_at_bounds n) as Hb.
  rewrite Z2Nat.id by lia.
  do 5 (destruct n as [|n]; [vm_compute; reflexivity|]).
  unfold backoff_at.
  assert (16 <= 2 ^ Z.of_nat (S (S (S (S (S n)))))).
  { change 16 with (2 ^ 4). apply Z.pow_le_mono_r; lia. }
  destruct (Z.ltb_spec (Z.of_nat (S (S (S (S (S n)))))) 5); [lia|].
  destruct (Z.ltb_spec (Z.of_nat (S (S (S (S (S (S n))))))) 5); lia.
Qed.

(** X15. How much [Lock] yields: after [n] failed compare-and-swaps it has
    called [runtime.Gosched()] 2^n - 1 times while [n] is below 5 and
    16n - 49 times from then on, so never more than 16 times per failed
    attempt; and it yields only after a failure (none when the first swap
    succeeds). *)
Theorem Lock_yield_total (seen : list Z) :
  Z.of_nat (gosched_count (fst (Lock seen))) =
    (if Z.of_nat (failures seen) <? 5
     then 2 ^ Z.of_nat (failures seen) - 1
     else 16 * Z.of_nat (failures seen) - 49)
  /\ Z.of_nat (gosched_count (fst (Lock seen))) <= 16 * Z.of_nat (failures seen).
Proof.
  assert (Z.of_nat (gosched_count (fst (Lock seen))) =
            Z.of_nat (gosched_count (failed_rounds 0 (failures seen)))) as ->.
  { unfold Lock. change 1 with (backoff_at 0). rewrite Lock_from_rounds.
    destruct (decide (failures seen < length seen)%nat); simpl; [|reflexivity].
    rewrite gosched_count_app. simpl. lia. }
  rewrite failed_rounds_yields. split; [reflexivity|].
  destruct (Z.ltb_spec (Z.of_nat (failures seen)) 5) as [Hlt|Hge]; [|lia].
  remember (failures seen) as n eqn:Hn. clear Hn.
  do 5 (destruct n as [|n]; [vm_compute; discriminate|]). lia.
Qed.

End SpinLockYields.

(** *** One task at a time on a worker's channel *)

Lemma chan_insert h wk s : chan (<[wk:=s]> h) wk = task s.
Proof. unfold chan, worker_at. by rewrite lookup_insert_eq. Qed.

Lemma chan_insert_ne h wk wk' s : wk <> wk' -> chan (<[wk:=s]> h) wk' = chan h wk'.
Proof. intros Hne. unfold chan, worker_at. by rewrite lookup_insert_ne. Qed.

Lemma wa_detach_Some q wk q' :
  wa_detach q = (Some wk, q') -> wa_items q ≡ₚ wk :: wa_items q'.
Proof.
  unfold wa_detach. destruct (wa_kind q).
  - destruct (rev (wa_items q)) as [|x r] eqn:Hr; intros H; simplify_eq/=.
    rewrite <- (rev_involutive (wa_items q)), Hr. simpl.
    by rewrite Permutation_app_comm.
  - destruct (wa_items q) as [|x r] eqn:Hr; intros H; simplify_eq/=. done.
Qed.

Lemma wa_detach_None q q' : wa_detach q = (None, q') -> q' = q.
Proof. unfold wa_detach. repeat case_match; intros; simplify_eq/=; done. Qed.

Lemma wa_insert_Some wk q q' :
  wa_insert wk q = Some q' -> wa_items q' = wa_items q ++ [wk].
Proof. unfold wa_insert. repeat case_match; intros; simplify_eq/=; done. Qed.

Lemma tidy_hand_idle q q' gs h wk t :
  tidy3 q gs h -> q ≡ₚ wk :: q' ->
  tidy3 q' gs (<[wk := push_task t (worker_at h wk)]> h).
Proof.
  intros (Hnd & Hq & Hg) Hp.
  rewrite Hp in Hnd. apply NoDup_cons in Hnd as [Hni Hnd].
  destruct (Hq wk) as [Hgw Hcw]; [rewrite Hp; by left|].
  split; [done|]. split.
  - intros x Hx. destruct (Hq x) as [Hgx Hcx]; [rewrite Hp; by right|].
    split; [done|]. rewrite chan_insert_ne; [done|]. intros ->. done.
  - intros x. destruct (decide (x = wk)) as [->|Hne].
    + rewrite Hgw, chan_insert. simpl. unfold chan in Hcw. rewrite Hcw. simpl. lia.
    + rewrite chan_insert_ne by done. apply Hg.
Qed.

Lemma tidy_not_queued q gs h wk :
  tidy3 q gs h -> gs !! wk <> Some Receiving -> wk ∉ q.
Proof. intros (_ & Hq & _) Hne Hin. by destruct (Hq wk Hin). Qed.

Lemma tidy_busy_not_queued q gs h wk :
  tidy3 q gs h -> chan h wk <> [] -> wk ∉ q.
Proof. intros (_ & Hq & _) Hne Hin. by destruct (Hq wk Hin). Qed.

Lemma tidy_hand_cached q gs h wk t :
  tidy3 q gs h -> gs !! wk = None ->
  tidy3 q (<[wk:=Receiving]> gs) (<[wk := push_task t (worker_at h wk)]> h).
Proof.
  intros Ht Hgw. pose proof (tidy_not_queued q gs h wk Ht ltac:(by rewrite Hgw)) as Hni.
  destruct Ht as (Hnd & Hq & Hg).
  assert (chan h wk = []) as Hcw by (specialize (Hg wk); by rewrite Hgw in Hg).
  split; [done|]. split.
  - intros x Hx. destruct (Hq x Hx) as [Hgx Hcx].
    assert (x <> wk) by (intros ->; done).
    rewrite lookup_insert_ne, chan_insert_ne by done. done.
  - intros x. destruct (decide (x = wk)) as [->|Hne].
    + rewrite lookup_insert_eq, chan_insert. simpl. unfold chan in Hcw. rewrite Hcw.
      simpl. lia.
    + rewrite lookup_insert_ne, chan_insert_ne by done. apply Hg.
Qed.

Lemma tidy_hand_new q gs h wk t :
  tidy3 q gs h -> gs !! wk = None ->
  tidy3 q (<[wk:=Receiving]> gs)
        (<[wk := push_task t (worker_at (<[wk := mkWorker [] 0]> h) wk)]>
           (<[wk := mkWorker [] 0]> h)).
Proof.
  intros Ht Hgw. pose proof (tidy_not_queued q gs h wk Ht ltac:(by rewrite Hgw)) as Hni.
  destruct Ht as (Hnd & Hq & Hg).
  split; [done|]. split.
  - intros x Hx. destruct (Hq x Hx) as [Hgx Hcx].
    assert (x <> wk) by (intros ->; done).
    rewrite lookup_insert_ne, !chan_insert_ne by done. done.
  - intros x. destruct (decide (x = wk)) as [->|Hne].
    + rewrite lookup_insert_eq, chan_insert. unfold worker_at.
      rewrite lookup_insert_eq. simpl. lia.
    + rewrite lookup_insert_ne, !chan_insert_ne by done. apply Hg.
Qed.

Lemma tidy_received q gs h wk t rest rt st :
  tidy3 q gs h -> gs !! wk = Some Receiving -> chan h wk = t :: rest ->
  st <> Some Receiving ->
  tidy3 q (partial_alter (fun _ => st) wk gs) (<[wk := mkWorker rest rt]> h).
Proof.
  intros Ht Hgw Hcw Hst.
  pose proof (tidy_busy_not_queued q gs h wk Ht ltac:(by rewrite Hcw)) as Hni.
  destruct Ht as (Hnd & Hq & Hg).
  assert (rest = []) as ->.
  { specialize (Hg wk). rewrite Hgw, Hcw in Hg. simpl in Hg.
    destruct rest; [done|simpl in Hg; lia]. }
  split; [done|]. split.
  - intros x Hx. destruct (Hq x Hx) as [Hgx Hcx].
    assert (x <> wk) by (intros ->; done).
    rewrite lookup_partial_alter_ne, chan_insert_ne by done. done.
  - intros x. destruct (decide (x = wk)) as [->|Hne].
    + rewrite lookup_partial_alter_eq, chan_insert. simpl.
      destruct st as [[| |]|]; done.
    + rewrite lookup_partial_alter_ne, chan_insert_ne by done. apply Hg.
Qed.

Lemma tidy_received_exit q gs h wk t rest rt :
  tidy3 q gs h -> gs !! wk = Some Receiving -> chan h wk = t :: rest ->
  tidy3 q (delete wk gs) (<[wk := mkWorker rest rt]> h).
Proof. intros. by apply (tidy_received q gs h wk t rest rt None). Qed.

Lemma tidy_received_call q gs h wk t rest rt f :
  tidy3 q gs h -> gs !! wk = Some Receiving -> chan h wk = t :: rest ->
  tidy3 q (<[wk := Executing f]> gs) (<[wk := mkWorker rest rt]> h).
Proof. intros. by apply (tidy_received q gs h wk t rest rt (Some (Executing f))). Qed.

Lemma tidy_stamp q gs h wk f t :
  tidy3 q gs h -> gs !! wk = Some (Executing f) ->
  tidy3 q (<[wk:=Reverting]> gs) (<[wk := stamp t (worker_at h wk)]> h).
Proof.
  intros Ht Hgw. pose proof (tidy_not_queued q gs h wk Ht ltac:(by rewrite Hgw)) as Hni.
  destruct Ht as (Hnd & Hq & Hg).
  assert (chan h wk = []) as Hcw by (specialize (Hg wk); by rewrite Hgw in Hg).
  split; [done|]. split.
  - intros x Hx. destruct (Hq x Hx) as [Hgx Hcx].
    assert (x <> wk) by (intros ->; done).
    rewrite lookup_insert_ne, chan_insert_ne by done. done.
  - intros x. destruct (decide (x = wk)) as [->|Hne].
    + rewrite lookup_insert_eq, chan_insert. simpl. exact Hcw.
    + rewrite lookup_insert_ne, chan_insert_ne by done. apply Hg.
Qed.

Lemma tidy_exit q gs h wk st :
  tidy3 q gs h -> gs !! wk = Some st -> st <> Receiving ->
  tidy3 q (delete wk gs) h.
Proof.
  intros Ht Hgw Hst.
  pose proof (tidy_not_queued q gs h wk Ht ltac:(rewrite Hgw; congruence)) as Hni.
  destruct Ht as (Hnd & Hq & Hg).
  assert (chan h wk = []) as Hcw.
  { specialize (Hg wk). rewrite Hgw in Hg. by destruct st. }
  split; [done|]. split.
  - intros x Hx. destruct (Hq x Hx) as [Hgx Hcx].
    assert (x <> wk) by (intros ->; done).
    rewrite lookup_delete_ne by done. done.
  - intros x. destruct (decide (x = wk)) as [->|Hne].
    + rewrite lookup_delete_eq. exact Hcw.
    + rewrite lookup_delete_ne by done. apply Hg.
Qed.

Lemma tidy_requeue q gs h wk :
  tidy3 q gs h -> gs !! wk = Some Reverting ->
  tidy3 (q ++ [wk]) (<[wk:=Receiving]> gs) h.
Proof.
  intros Ht Hgw. pose proof (tidy_not_queued q gs h wk Ht ltac:(by rewrite Hgw)) as Hni.
  destruct Ht as (Hnd & Hq & Hg).
  assert (chan h wk = []) as Hcw by (specialize (Hg wk); by rewrite Hgw in Hg).
  split; [|split].
  - apply NoDup_app. split; [done|]. split; [|apply NoDup_singleton].
    intros x Hx Hx'. apply list_elem_of_singleton in Hx'. by subst.
  - intros x Hx. apply elem_of_app in Hx as [Hx|Hx].
    + destruct (Hq x Hx) as [Hgx Hcx].
      assert (x <> wk) by (intros ->; done).
      rewrite lookup_insert_ne by done. done.
    + apply list_elem_of_singleton in Hx. subst. by rewrite lookup_insert_eq.
  - intros x. destruct (decide (x = wk)) as [->|Hne].
    + rewrite lookup_insert_eq, Hcw. simpl. lia.
    + rewrite lookup_insert_ne by done. apply Hg.
Qed.

Lemma send_nil_heap ws w : heap (snd (send_nil ws w)) = nil_sent ws (heap w).
Proof.
  revert w. induction ws as [|wk ws IH]; intros w; [reflexivity|].
  simpl. unfold bind. simpl. rewrite IH. reflexivity.
Qed.

Lemma chan_nil_sent_out ws h wk : wk ∉ ws -> chan (nil_sent ws h) wk = chan h wk.
Proof.
  revert h. induction ws as [|x ws IH]; intros h Hni; [done|].
  apply not_elem_of_cons in Hni as [Hne Hni]. simpl.
  rewrite IH by done. by rewrite chan_insert_ne.
Qed.

Lemma chan_nil_sent_in ws h wk :
  NoDup ws -> wk ∈ ws -> chan (nil_sent ws h) wk = chan h wk ++ [Nil].
Proof.
  revert h. induction ws as [|x ws IH]; intros h Hnd Hin.
  - by apply elem_of_nil in Hin.
  - apply NoDup_cons in Hnd as [Hx Hnd]. simpl.
    destruct (decide (wk = x)) as [->|Hne].
    + rewrite chan_nil_sent_out by done. by rewrite chan_insert.
    + apply elem_of_cons in Hin as [?|Hin]; [done|].
      rewrite IH by done. by rewrite chan_insert_ne.
Qed.

Lemma tidy_nil_sent q q' ex gs h :
  tidy3 q gs h -> NoDup ex -> NoDup q' ->
  (forall x, x ∈ ex -> x ∈ q) ->
  (forall x, x ∈ q' -> x ∈ q /\ x ∉ ex) ->
  tidy3 q' gs (nil_sent ex h).
Proof.
  intros (Hnd & Hq & Hg) Hex Hq' Hsub Hrest.
  split; [done|]. split.
  - intros x Hx. destruct (Hrest x Hx) as [Hxq Hxe].
    rewrite chan_nil_sent_out by done. by apply Hq.
  - intros x. destruct (decide (x ∈ ex)) as [Hin|Hni].
    + destruct (Hq x (Hsub x Hin)) as [Hgx Hcx].
      rewrite Hgx, chan_nil_sent_in, Hcx by done. simpl. lia.
    + rewrite chan_nil_sent_out by done. apply Hg.
Qed.

Lemma tidy_reset q gs h : tidy3 q gs h -> tidy3 [] gs (nil_sent q h).
Proof.
  intros Ht. eapply tidy_nil_sent; [exact Ht|apply Ht|apply NoDup_nil_2|done|].
  intros x Hx. by apply elem_of_nil in Hx.
Qed.

Lemma tidy_purge (P : nat -> bool) q gs h :
  tidy3 q gs h ->
  tidy3 (List.filter (fun wk => negb (P wk)) q) gs (nil_sent (List.filter P q) h).
Proof.
  intros Ht. pose proof Ht as (Hnd & _ & _).
  eapply tidy_nil_sent; [exact Ht|..].
  - apply NoDup_ListNoDup, List.NoDup_filter, NoDup_ListNoDup, Hnd.
  - apply NoDup_ListNoDup, List.NoDup_filter, NoDup_ListNoDup, Hnd.
  - intros x Hx. apply list_elem_of_In, filter_In in Hx as [Hx _].
    by apply list_elem_of_In.
  - intros x Hx. apply list_elem_of_In, filter_In in Hx as [Hx Hp].
    split; [by apply list_elem_of_In|].
    intros Hx'. apply list_elem_of_In, filter_In in Hx' as [_ Hp'].
    rewrite Hp' in Hp. done.
Qed.

Lemma chan_recv_heap wk w t w1 :
  chan_recv wk w = Some (t, w1) ->
  exists rest,
    chan (heap w) wk = t :: rest
    /\ w1 = upd_heap (insert wk (mkWorker rest (recycleTime (worker_at (heap w) wk)))) w.
Proof.
  unfold chan_recv, chan. intros H. repeat case_match; simplify_eq/=. eauto.
Qed.

Ltac use_send_nil_heap :=
  repeat match goal with
  | H : send_nil ?ws ?w = (_, ?w1) |- _ =>
      let E := fresh "E" in
      pose proof (send_nil_pool ws w) as E; rewrite H in E; simpl in E;
      let E2 := fresh "E" in
      pose proof (send_nil_goroutines ws w) as E2; rewrite H in E2; simpl in E2;
      let E3 := fresh "E" in
      pose proof (send_nil_heap ws w) as E3; rewrite H in E3; simpl in E3;
      clear H; rewrite ?E, ?E2, ?E3 in *; simpl in *
  end.

Ltac use_chan_recv_heap :=
  repeat match goal with
  | H : chan_recv ?wk ?w = Some (_, ?w1) |- _ =>
      let r := fresh "rest" in
      let E := fresh "Hchan" in
      destruct (chan_recv_heap _ _ _ _ H) as (r & E & ->); clear H; simpl in *
  end.

Lemma step_tidy o w w' :
  step o w = Some w' -> cache_idle w -> tidy w -> tidy w'.
Proof.
  destruct o; simpl; intros Hs Hi Ht.
  all: unfold_go.
  all: repeat case_match; simplify_eq/=; use_send_nil_heap; use_chan_recv_heap; try done.
  all: unfold tidy, cache_idle in *; simpl in *.
  all: repeat match goal with
       | E : pool ?w1 = _ |- _ => rewrite E in *; clear E
       | E : goroutines ?w1 = _ |- _ => rewrite E in *; clear E
       | E : heap ?w1 = _ |- _ => rewrite E in *; clear E
       end; simpl in *.
  all: repeat match goal with
       | H : wa_detach _ = (Some _, _) |- _ => apply wa_detach_Some in H
       | H : wa_detach _ = (None, _) |- _ => apply wa_detach_None in H; subst
       | H : wa_insert _ _ = Some _ |- _ => apply wa_insert_Some in H; rewrite H
       | H : workerCache _ = _ |- _ => rewrite H in *
       end.
  all: eauto using tidy_hand_idle, tidy_hand_cached, tidy_hand_new, tidy_stamp,
         tidy_received_exit, tidy_received_call,
         tidy_exit, tidy_requeue, tidy_reset, tidy_purge, idle_head_free, idle_next_free.
  all: try (eapply tidy_exit; eauto; done).
  all: match goal with
       | H : wa_retrieveExpiry _ _ _ _ = _ |- _ =>
           unfold wa_retrieveExpiry in H; simplify_eq/=; by apply tidy_purge
       end.
Qed.

Lemma NewPool_tidy size opts w : NewPool size opts = Created w -> tidy w.
Proof.
  unfold NewPool, tidy. unfold_go.
  repeat case_match; simplify_eq/=; intros; simplify_eq/=.
  all: split; [apply NoDup_nil_2|]; split;
    [intros wk Hwk; by apply elem_of_nil in Hwk|intros wk; by rewrite lookup_empty].
Qed.

Lemma exec_tidy ops w w' :
  exec ops w = Some w' -> cache_idle w -> tidy w -> cache_idle w' /\ tidy w'.
Proof.
  revert w. induction ops as [|o ops IH]; intros w He Hi Ht; simpl in He.
  - by simplify_eq.
  - destruct (step o w) as [w1|] eqn:Hs; [|done].
    eauto using step_cache_idle, step_tidy.
Qed.

Lemma reachable_tidy w : reachable w -> cache_idle w /\ tidy w.
Proof.
  intros (size & opts & ops & _ & Hr). unfold run_from in Hr.
  destruct (NewPool size opts) as [w0|e] eqn:Hn; simpl in Hr; [|done].
  eapply exec_tidy; eauto using NewPool_cache_idle, NewPool_tidy.
Qed.

Lemma tidy_free_empty q gs h wk : tidy3 q gs h -> gs !! wk = None -> chan h wk = [].
Proof. intros (_ & _ & Hg) Hw. specialize (Hg wk). by rewrite Hw in Hg. Qed.

Lemma tidy_detached q gs h wk q' :
  tidy3 (wa_items q) gs h -> wa_detach q = (Some wk, q') ->
  gs !! wk = Some Receiving /\ chan h wk = [].
Proof.
  intros (_ & Hq & _) Hd. apply Hq. rewrite (wa_detach_Some _ _ _ Hd). by left.
Qed.

Lemma retrieved_idle (w : World) (r : acquired * World) (wk : nat) :
  cache_idle w -> tidy w ->
  (exists g, r = retrieveWorker g w \/ r = retrieveWorker_awake g w) ->
  fst r = Worker wk ->
  goroutines (snd r) !! wk = Some Receiving /\ chan (heap (snd r)) wk = [].
Proof.
  intros Hi Ht (g & [-> | ->]); unfold tidy, cache_idle in *.
  all: unfold_go; simpl.
  all: repeat case_match; simplify_eq/=; intros; simplify_eq/=.
  all: repeat match goal with
       | H : workerCache _ = _ |- _ => rewrite H in *
       end.
  all: rewrite ?lookup_insert_eq, ?chan_insert.
  all: eauto using tidy_detached, tidy_free_empty, idle_head_free, idle_next_free.
Qed.

(** X16. In every world that a schedule leads to from a new pool, no
    worker's channel holds more than one value, a channel that holds one
    belongs to a goroutine blocked on its receive, the idle queue lists no
    worker twice, and every worker in it is blocked on an empty channel:
    [Submit] sends to a worker that [retrieveWorker] took out of the queue
    or just started, [Release] and the scavenger send [nil] to workers they
    take out of the queue, and [revertWorker] puts back only the worker
    that has finished its task. *)
Theorem one_task_pending (w : World) :
  reachable w ->
  NoDup (wa_items (workers (pool w)))
  /\ (forall wk, (length (chan (heap w) wk) <= 1)%nat)
  /\ (forall wk, chan (heap w) wk <> [] -> goroutines w !! wk = Some Receiving)
  /\ (forall wk, wk ∈ wa_items (workers (pool w)) ->
                 goroutines w !! wk = Some Receiving /\ chan (heap w) wk = []).
Proof.
  intros Hr. destruct (reachable_tidy w Hr) as [_ (Hnd & Hq & Hg)].
  split; [exact Hnd|]. split; [|split; [|exact Hq]].
  - intros wk. specialize (Hg wk).
    destruct (goroutines w !! wk) as [[| |]|]; [exact Hg|..]; rewrite Hg; simpl; lia.
  - intros wk Hne. specialize (Hg wk).
    destruct (goroutines w !! wk) as [[| |]|]; done.
Qed.

Lemma one_task_pending_witness :
  match run_from 2 no_options
                 [OpSubmit 1%nat (Func 7); OpSubmitLocked 1%nat; OpSpawn 1%nat;
                  OpReceive 0%nat; OpReturned 0%nat; OpReverted 0%nat;
                  OpSubmit 2%nat (Func 8); OpSubmitLocked 2%nat] with
  | Some w =>
      chan (heap w) 0%nat = [Func 8]
      /\ (forall wk, (length (chan (heap w) wk) <= 1)%nat)
      /\ (forall wk, chan (heap w) wk <> [] -> goroutines w !! wk = Some Receiving)
  | None => False
  end.
Proof.
  destruct (run_from _ _ _) as [w|] eqn:E; [|vm_compute in E; discriminate].
  destruct (one_task_pending w) as (_ & H1 & H2 & _).
  { eexists _, _, _. split; [|exact E]. unfold in_int, min_int, max_int. lia. }
  split; [|by split].
  vm_compute in E. injection E as <-. vm_compute. reflexivity.
Defined.

(** X17. The worker that [retrieveWorker] returns, at its first pass or
    after a wake-up, is idle: in every world that a schedule leads to from
    a new pool its goroutine is blocked on its receive and its channel is
    empty, whether it came out of the idle queue, out of the free-object
    cache or was just allocated. So the send of [Submit] never queues a
    task behind another one. *)
Theorem retrieved_worker_idle (g wk : nat) (w w1 : World) :
  reachable w ->
  retrieveWorker g w = (Worker wk, w1) \/ retrieveWorker_awake g w = (Worker wk, w1) ->
  goroutines w1 !! wk = Some Receiving /\ chan (heap w1) wk = [].
Proof.
  intros Hr H. destruct (reachable_tidy w Hr) as [Hi Ht].
  apply (retrieved_idle w (Worker wk, w1) wk Hi Ht); [|done].
  exists g. destruct H as [<- | <-]; eauto.
Qed.

Lemma retrieved_worker_idle_witness :
  match run_from 2 no_options
                 [OpSubmit 1%nat (Func 7); OpSubmitLocked 1%nat; OpSpawn 1%nat;
                  OpReceive 0%nat; OpReturned 0%nat; OpReverted 0%nat] with
  | Some w =>
      fst (retrieveWorker 2 w) = Worker 0
      /\ goroutines (snd (retrieveWorker 2 w)) !! 0%nat = Some Receiving
      /\ chan (heap (snd (retrieveWorker 2 w))) 0%nat = []
  | None => False
  end.
Proof.
  destruct (run_from _ _ _) as [w|] eqn:E; [|vm_compute in E; discriminate].
  assert (fst (retrieveWorker 2 w) = Worker 0) as H0.
  { vm_compute in E. injection E as <-. vm_compute. reflexivity. }
  split; [exact H0|].
  apply (retrieved_worker_idle 2 0 w (snd (retrieveWorker 2 w))).
  - eexists _, _, _. split; [|exact E]. unfold in_int, min_int, max_int. lia.
  - left. rewrite <- H0. by destruct (retrieveWorker 2 w).
Defined.
